(** * The issues topic of the policybot dashboard

    A shallow embedding of [policybot/dashboard/topics/issues/topic.go] in its
    two historical variants:

    - [DisplayResolved]: the variant that scans the open issues and resolves
      author and assignee identifiers to logins ([getIssues],
      [getIssuesForRepo], [getUser]);
    - [PassThrough]: the variant that scans all issues and carries the
      identifiers through unresolved ([getIssues]).

    Go strings are byte sequences, so they are modelled by [string] (a list of
    8-bit [ascii]); [len] is [String.length] and [s[0:n]] is [substring 0 n s].
    A Go slice is a [list]; the nil slice and the empty slice are both [[]].
    A Go result pair [(ptr, err)] is a pair of options.  The [context.Context]
    argument carries no data the code reads and is left out. *)

From Stdlib Require Import String Ascii List ZArith NArith Bool Arith Lia.
Import ListNotations.
Local Open Scope list_scope.
Local Open Scope string_scope.

(** ** Go values shared by both variants *)

(** Go's [error] interface.  The only errors the topic builds itself are the
    ones of [util.HTTPErrorf], which carry a status code; every other error
    value (the cache's, the store's, the template's) is opaque to the topic and
    is identified here by its message. *)
Inductive error : Type :=
| HTTPError (statusCode : Z) (msg : string)
| PlainError (msg : string).

(** [err.Error()], as printed by the [%v] verb. *)
Definition Error (e : error) : string :=
  match e with
  | HTTPError _ m => m
  | PlainError m => m
  end.

Definition statusOf (e : error) : option Z :=
  match e with
  | HTTPError c _ => Some c
  | PlainError _ => None
  end.

Module http.
Definition StatusOK : Z := 200.
Definition StatusNotFound : Z := 404.
Definition StatusInternalServerError : Z := 500.
End http.

Module util.
(** Modelled from the spec: [util.HTTPErrorf] lives in [policybot/pkg/util],
    which is not part of the sources at hand.  "Errors surfaced to the
    boundary must carry an associated HTTP-style status code": the error
    built from a status and a formatted message carries that status.  The
    formatting of the message ([%s], [%v]) is written out at each call. *)
Definition HTTPErrorf (statusCode : Z) (formatted : string) : error :=
  HTTPError statusCode formatted.
End util.

(** A Go result pair: a pointer that may be nil, and an error that may be nil. *)
Definition result (A : Type) : Type := (option A * option error)%type.

Module storage.
Record Org : Type := { OrgID : string; OrgLogin : string }.
Record Repo : Type := { RepoID : string; RepoName : string }.
Record User : Type := { UserID : string; Login : string }.
Record Issue : Type := {
  Number : Z;
  Title : string;
  State : string;
  AuthorID : string;
  AssigneeIDs : list string
}.

(** Modelled from the spec: what one streaming scan of the store does, seen
    from the visitor: the issues it emits, in store order, and the error the
    iteration ends with, if any, after they have been visited.
    [storage.Store] itself is not part of the sources at hand. *)
Record Scan : Type := { emitted : list Issue; failure : option error }.

Record Store : Type := {
  QueryOpenIssuesByRepo : string -> string -> Scan;
  QueryIssuesByRepo : string -> string -> Scan
}.
End storage.

Module cache.
(** The read-through cache.  Its lookups may change the cache (a miss fills
    it), so each one takes the cache's state [C] and returns the next. *)
Record Cache (C : Type) : Type := {
  ReadOrgByLogin : string -> C -> result storage.Org * C;
  ReadRepoByName : string -> string -> C -> result storage.Repo * C;
  ReadUser : string -> C -> result storage.User * C
}.
Arguments ReadOrgByLogin {C} _ _ _.
Arguments ReadRepoByName {C} _ _ _ _.
Arguments ReadUser {C} _ _ _.
End cache.

(** ** The world the topic runs in *)

(** The cache lookups the topic has issued, oldest first. *)
Inductive CacheCall : Type :=
| CallReadOrgByLogin (login : string)
| CallReadRepoByName (orgID repoName : string)
| CallReadUser (userID : string).

Definition isUserCall (c : CacheCall) : bool :=
  match c with
  | CallReadUser _ => true
  | _ => false
  end.

Record World (C : Type) : Type := {
  cacheState : C;
  calls : list CacheCall
}.
Arguments cacheState {C} _.
Arguments calls {C} _.
Arguments Build_World {C} _ _.

(** A state monad over the world. *)
Definition M (C A : Type) : Type := World C -> A * World C.

Definition ret {C A : Type} (a : A) : M C A := fun w => (a, w).

Definition bind {C A B : Type} (m : M C A) (k : A -> M C B) : M C B :=
  fun w => let (a, w') := m w in k a w'.

Declare Scope go_scope.
Delimit Scope go_scope with go.
Notation "x <- m ;; k" := (bind m (fun x => k))
  (at level 61, m at next level, right associativity) : go_scope.
Notation "' p <- m ;; k" := (bind m (fun x => match x with p => k end))
  (at level 61, p pattern, m at next level, right associativity) : go_scope.
Local Open Scope go_scope.

Section CacheCalls.
Context {C : Type}.

Definition issue (call : CacheCall) {A : Type} (f : C -> A * C) : M C A :=
  fun w =>
    let (r, c') := f (cacheState w) in
    (r, {| cacheState := c'; calls := (calls w ++ [call])%list |}).

Definition readOrgByLogin (c : cache.Cache C) (login : string)
  : M C (result storage.Org) :=
  issue (CallReadOrgByLogin login) (cache.ReadOrgByLogin c login).

Definition readRepoByName (c : cache.Cache C) (orgID repoName : string)
  : M C (result storage.Repo) :=
  issue (CallReadRepoByName orgID repoName) (cache.ReadRepoByName c orgID repoName).

Definition readUser (c : cache.Cache C) (userID : string)
  : M C (result storage.User) :=
  issue (CallReadUser userID) (cache.ReadUser c userID).

(** Modelled from the spec: the store's scan, "[visit] is invoked once per
    matching issue in store order; a non-nil result from [visit] must abort
    the scan and propagate".  [acc] is the variable the visiting closure
    captures and appends to. *)
Fixpoint runScan {Acc : Type} (issues : list storage.Issue) (failure : option error)
         (visit : storage.Issue -> Acc -> M C (Acc * option error)) (acc : Acc)
  : M C (Acc * option error) :=
  match issues with
  | [] => ret (acc, failure)
  | i :: rest =>
      '(acc', err) <- visit i acc ;;
      match err with
      | Some e => ret (acc', Some e)
      | None => runScan rest failure visit acc'
      end
  end.

Definition scanIssues {Acc : Type} (s : storage.Scan)
           (visit : storage.Issue -> Acc -> M C (Acc * option error)) (acc : Acc)
  : M C (Acc * option error) :=
  runScan (storage.emitted s) (storage.failure s) visit acc.
End CacheCalls.

(** What a handler hands to the render context and the page template. *)
Inductive Rendered (S : Type) : Type :=
| RenderHTMLError (e : error)
| PageExecute (data : list S)
| RenderHTML (body : string)
| RenderJSON (statusCode : Z) (data : list S).
Arguments RenderHTMLError {S} _.
Arguments PageExecute {S} _.
Arguments RenderHTML {S} _.
Arguments RenderJSON {S} _ _.

Record Options : Type := { DefaultOrg : string }.

(** The separator of the assignee string: a comma and a newline. *)
Definition newline : string := String (ascii_of_nat 10) EmptyString.
Definition commaNewline : string := "," ++ newline.

(** ** The display-resolved variant (topic.go) *)

Module DisplayResolved.

Record IssueSummary : Type := {
  Repo : string;
  Number : Z;
  Title : string;
  State : string;
  AuthorLogin : string;
  Assignees : string
}.

(** The [context] field, the render context, is not a field here: what a
    handler hands to it is the handler's result ([Rendered]). *)
Record topic (C : Type) : Type := {
  store : storage.Store;
  cache : cache.Cache C;
  (** [page.Execute]: the text written and the error returned. *)
  page : list IssueSummary -> string * option error;
  options : Options
}.
Arguments store {C} _.
Arguments cache {C} _.
Arguments page {C} _ _.
Arguments options {C} _.

Section Topic.
Context {C : Type}.
Variable t : topic C.

Definition getUser (authorID : string) : M C string :=
  let authorName := "unknown" in
  '(author, authorErr) <- readUser (cache t) authorID ;;
  match authorErr, author with
  | None, Some author => ret (storage.Login author)
  | _, _ => ret authorName
  end.

(** The loop over [i.AssigneeIDs]; [assignees] is the string built so far. *)
Fixpoint assigneesLoop (assigneeIDs : list string) (assignees : string) : M C string :=
  match assigneeIDs with
  | [] => ret assignees
  | assigneeID :: rest =>
      let assignees :=
        if string_dec assignees "" then assignees else assignees ++ commaNewline in
      name <- getUser assigneeID ;;
      assigneesLoop rest (assignees ++ name)
  end.

(** The closure passed to [QueryOpenIssuesByRepo]. *)
Definition visit (repoName : string) (i : storage.Issue) (issues : list IssueSummary)
  : M C (list IssueSummary * option error) :=
  assignees <- assigneesLoop (storage.AssigneeIDs i) "" ;;
  let title := storage.Title i in
  let title :=
    if Nat.ltb 50 (String.length title)
    then substring 0 50 title ++ ". . ."
    else title in
  authorLogin <- getUser (storage.AuthorID i) ;;
  ret ((issues ++ [{| Repo := repoName;
                      Number := storage.Number i;
                      Title := title;
                      State := storage.State i;
                      AuthorLogin := authorLogin;
                      Assignees := assignees |}])%list,
       None).

Definition getIssuesForRepo (orgID repoName : string)
  : M C (list IssueSummary * option error) :=
  '(repo, err) <- readRepoByName (cache t) orgID repoName ;;
  match err, repo with
  | Some err, _ =>
      ret ([], Some (util.HTTPErrorf http.StatusInternalServerError
             ("unable to get information on repository " ++ repoName
                ++ ": " ++ Error err)))
  | None, None =>
      ret ([], Some (util.HTTPErrorf http.StatusNotFound
             ("no information available on repository " ++ repoName)))
  | None, Some repo =>
      '(issues, err) <-
         scanIssues
           (storage.QueryOpenIssuesByRepo (store t) orgID (storage.RepoID repo))
           (visit repoName) [] ;;
      match err with
      | Some err => ret ([], Some err)
      | None => ret (issues, None)
      end
  end.

Definition getIssues (orgLogin : string) : M C (list IssueSummary * option error) :=
  '(org, err) <- readOrgByLogin (cache t) orgLogin ;;
  match err, org with
  | Some err, _ =>
      ret ([], Some (util.HTTPErrorf http.StatusInternalServerError
             ("unable to get information on organization " ++ orgLogin
                ++ ": " ++ Error err)))
  | None, None =>
      ret ([], Some (util.HTTPErrorf http.StatusNotFound
             ("no information available on organization " ++ orgLogin)))
  | None, Some org => getIssuesForRepo (storage.OrgID org) "istio"
  end.

(** [query] is [r.URL.Query().Get("org")]: empty when the parameter is
    absent.  The result lists what was handed to the render context and
    the template, in order. *)
Definition handleListIssuesHTML (query : string) : M C (list (Rendered IssueSummary)) :=
  let orgLogin := if string_dec query "" then DefaultOrg (options t) else query in
  '(issues, err) <- getIssues orgLogin ;;
  let reported :=
    match err with
    | Some err => [RenderHTMLError err]
    | None => []
    end in
  match page t issues with
  | (_, Some err) => ret (reported ++ [PageExecute issues; RenderHTMLError err])%list
  | (sb, None) => ret (reported ++ [PageExecute issues; RenderHTML sb])%list
  end.

Definition handleListIssuesJSON (query : string) : M C (list (Rendered IssueSummary)) :=
  let orgLogin := if string_dec query "" then "istio" else query in
  '(issues, err) <- getIssues orgLogin ;;
  match err with
  | Some err => ret [RenderHTMLError err]
  | None => ret [RenderJSON http.StatusOK issues]
  end.
End Topic.

End DisplayResolved.

(** ** The pass-through variant *)

Module PassThrough.

Record IssueSummary : Type := {
  Repo : string;
  Number : Z;
  Title : string;
  State : string;
  AuthorID : string;
  AssigneeIDs : list string
}.

Record topic (C : Type) : Type := {
  store : storage.Store;
  cache : cache.Cache C;
  page : list IssueSummary -> string * option error;
  options : Options
}.
Arguments store {C} _.
Arguments cache {C} _.
Arguments page {C} _ _.
Arguments options {C} _.

Section Topic.
Context {C : Type}.
Variable t : topic C.

(** The closure passed to [QueryIssuesByRepo]. *)
Definition visit (repoName : string) (i : storage.Issue) (issues : list IssueSummary)
  : M C (list IssueSummary * option error) :=
  ret ((issues ++ [{| Repo := repoName;
                      Number := storage.Number i;
                      Title := storage.Title i;
                      State := storage.State i;
                      AuthorID := storage.AuthorID i;
                      AssigneeIDs := storage.AssigneeIDs i |}])%list,
       None).

Definition getIssues (orgLogin : string) : M C (list IssueSummary * option error) :=
  '(org, err) <- readOrgByLogin (cache t) orgLogin ;;
  match err, org with
  | Some err, _ =>
      ret ([], Some (util.HTTPErrorf http.StatusInternalServerError
             ("unable to get information on organization " ++ orgLogin
                ++ ": " ++ Error err)))
  | None, None =>
      ret ([], Some (util.HTTPErrorf http.StatusNotFound
             ("no information available on organization " ++ orgLogin)))
  | None, Some org =>
      let repoName := "istio" in
      '(repo, err) <- readRepoByName (cache t) (storage.OrgID org) repoName ;;
      match err, repo with
      | Some err, _ =>
          ret ([], Some (util.HTTPErrorf http.StatusInternalServerError
                 ("unable to get information on repository " ++ repoName
                    ++ ": " ++ Error err)))
      | None, None =>
          ret ([], Some (util.HTTPErrorf http.StatusNotFound
                 ("no information available on repository " ++ repoName)))
      | None, Some repo =>
          '(issues, err) <-
             scanIssues
               (storage.QueryIssuesByRepo (store t) (storage.OrgID org)
                  (storage.RepoID repo))
               (visit repoName) [] ;;
          match err with
          | Some err => ret ([], Some err)
          | None => ret (issues, None)
          end
      end
  end.

(** The two handlers of this variant, which read as those of the other. *)
Definition handleListIssuesHTML (query : string) : M C (list (Rendered IssueSummary)) :=
  let orgLogin := if string_dec query "" then DefaultOrg (options t) else query in
  '(issues, err) <- getIssues orgLogin ;;
  let reported :=
    match err with
    | Some err => [RenderHTMLError err]
    | None => []
    end in
  match page t issues with
  | (_, Some err) => ret (reported ++ [PageExecute issues; RenderHTMLError err])%list
  | (sb, None) => ret (reported ++ [PageExecute issues; RenderHTML sb])%list
  end.

Definition handleListIssuesJSON (query : string) : M C (list (Rendered IssueSummary)) :=
  let orgLogin := if string_dec query "" then "istio" else query in
  '(issues, err) <- getIssues orgLogin ;;
  match err with
  | Some err => ret [RenderHTMLError err]
  | None => ret [RenderJSON http.StatusOK issues]
  end.
End Topic.

End PassThrough.

(** ** Characters and bytes *)

(** A byte of the form [10xxxxxx] continues a UTF-8 encoded character; every
    other byte starts one. *)
Definition isContinuation (b : ascii) : bool :=
  N.eqb (N.land (N_of_ascii b) 192) 128.

(** The number of characters of a well-formed UTF-8 string: the bytes that
    start a character. *)
Fixpoint charCount (s : string) : nat :=
  match s with
  | EmptyString => 0
  | String b rest => (if isContinuation b then 0 else 1) + charCount rest
  end.

(** The strings whose bytes are all below 128, on which a character is a byte. *)
Fixpoint isASCII (s : string) : bool :=
  match s with
  | EmptyString => true
  | String b rest => N.ltb (N_of_ascii b) 128 && isASCII rest
  end.

(** ** What the spec says of the assignee string *)

(** The logins joined by [sep], as [strings.Join] would: a separator between
    neighbours, none at either end. *)
Fixpoint join (sep : string) (parts : list string) : string :=
  match parts with
  | [] => ""
  | [p] => p
  | p :: rest => p ++ sep ++ join sep rest
  end.

(** ** A small world to run the code in *)

Module Demo.
Definition istioOrg : storage.Org := {| storage.OrgID := "o1"; storage.OrgLogin := "istio" |}.
Definition istioRepo : storage.Repo := {| storage.RepoID := "r1"; storage.RepoName := "istio" |}.

Definition user (id login : string) : storage.User :=
  {| storage.UserID := id; storage.Login := login |}.

(** A cache without state: [istio] is known, [broken] cannot be looked up,
    every other organization is unknown; likewise for the users. *)
Definition demoCache : cache.Cache unit := {|
  cache.ReadOrgByLogin := fun login c =>
    if string_dec login "istio" then ((Some istioOrg, None), c)
    else if string_dec login "norepo" then
      ((Some {| storage.OrgID := "o2"; storage.OrgLogin := "norepo" |}, None), c)
    else if string_dec login "badrepo" then
      ((Some {| storage.OrgID := "o3"; storage.OrgLogin := "badrepo" |}, None), c)
    else if string_dec login "broken" then ((None, Some (PlainError "timeout")), c)
    else ((None, None), c);
  cache.ReadRepoByName := fun orgID name c =>
    if string_dec orgID "o1" then ((Some istioRepo, None), c)
    else if string_dec orgID "o3" then ((None, Some (PlainError "timeout")), c)
    else ((None, None), c);
  cache.ReadUser := fun id c =>
    if string_dec id "u1" then ((Some (user "u1" "alice"), None), c)
    else if string_dec id "u2" then ((Some (user "u2" "bob"), None), c)
    else if string_dec id "u0" then ((Some (user "u0" ""), None), c)
    else if string_dec id "u9" then ((None, Some (PlainError "timeout")), c)
    else ((None, None), c)
|}.

Definition issue (n : Z) (title author : string) (assignees : list string) : storage.Issue :=
  {| storage.Number := n; storage.Title := title; storage.State := "open";
     storage.AuthorID := author; storage.AssigneeIDs := assignees |}.

Definition a49 : string := "aaaaaaaaaaaaaaaaaaaaaaaaaaaaaaaaaaaaaaaaaaaaaaaaa".

(** [e-acute] in UTF-8: the two bytes [0xC3 0xA9]. *)
Definition eAcute : string :=
  String (ascii_of_nat 195) (String (ascii_of_nat 169) EmptyString).

Definition threeIssues : list storage.Issue :=
  [ issue 1 "first" "u1" ["u1"; "u2"];
    issue 2 (a49 ++ "bc") "u7" [];
    issue 3 (a49 ++ eAcute) "u9" ["u0"; "u2"] ].

Definition scanOf (issues : list storage.Issue) (failure : option error) : storage.Store :=
  {| storage.QueryOpenIssuesByRepo := fun _ _ =>
       {| storage.emitted := issues; storage.failure := failure |};
     storage.QueryIssuesByRepo := fun _ _ =>
       {| storage.emitted := issues; storage.failure := failure |} |}.

Definition resolved (s : storage.Store) : DisplayResolved.topic unit :=
  {| DisplayResolved.store := s;
     DisplayResolved.cache := demoCache;
     DisplayResolved.page := fun issues => ("<page>", None);
     DisplayResolved.options := {| DefaultOrg := "istio" |} |}.

Definition raw (s : storage.Store) : PassThrough.topic unit :=
  {| PassThrough.store := s;
     PassThrough.cache := demoCache;
     PassThrough.page := fun issues => ("<page>", None);
     PassThrough.options := {| DefaultOrg := "istio" |} |}.

Definition start : World unit := {| cacheState := tt; calls := [] |}.

(** A cache with state, the number of user lookups it has served: the first
    finds [alice], every later one fails. *)
Definition flakyCache : cache.Cache nat := {|
  cache.ReadOrgByLogin := fun login n => ((Some istioOrg, None), n);
  cache.ReadRepoByName := fun orgID name n => ((Some istioRepo, None), n);
  cache.ReadUser := fun id n =>
    match n with
    | O => ((Some (user id "alice"), None), 1)
    | S _ => ((None, Some (PlainError "timeout")), S n)
    end
|}.

Definition flaky (s : storage.Store) : DisplayResolved.topic nat :=
  {| DisplayResolved.store := s;
     DisplayResolved.cache := flakyCache;
     DisplayResolved.page := fun issues => ("<page>", None);
     DisplayResolved.options := {| DefaultOrg := "istio" |} |}.

Definition flakyStart : World nat := {| cacheState := 0; calls := [] |}.
End Demo.

(** ** The vocabulary of the statements *)

(** [Visits visit l w ss w']: visiting the issues of [l] in order from the
    world [w], each visit appending one summary and returning nil, appends
    [ss] and ends in [w']. *)
Inductive Visits {C S : Type}
          (visit : storage.Issue -> list S -> M C (list S * option error))
  : list storage.Issue -> World C -> list S -> World C -> Prop :=
| Visits_nil : forall w, Visits visit [] w [] w
| Visits_cons : forall i rest w s w1 ss w2,
    (forall acc, visit i acc w = (((acc ++ [s])%list, None), w1)) ->
    Visits visit rest w1 ss w2 ->
    Visits visit (i :: rest) w (s :: ss) w2.

(** Where both lookups of a request succeed: the organization and then the
    repository are found, taking the world from [w] to [w2]. *)
Definition Resolved {C : Type} (c : cache.Cache C) (orgLogin repoName : string)
           (w : World C) (org : storage.Org) (repo : storage.Repo) (w2 : World C) : Prop :=
  exists w1,
    readOrgByLogin c orgLogin w = ((Some org, None), w1) /\
    readRepoByName c (storage.OrgID org) repoName w1 = ((Some repo, None), w2).

(** A resolver result that is no summaries and an error carrying [status]. *)
Definition FailsWith {C S : Type} (r : (list S * option error) * World C) (status : Z) : Prop :=
  exists e, fst r = ([], Some e) /\ statusOf e = Some status.

(** What [getUser] answers, read off the cache's answer. *)
Definition loginOr (r : result storage.User) : string :=
  match r with
  | (Some u, None) => storage.Login u
  | _ => "unknown"
  end.

(** A user lookup that fails to resolve: an error, or no user. *)
Definition Unresolved (r : result storage.User) : Prop :=
  fst r = None \/ snd r <> None.

(** One turn of the assignee loop on the string built so far. *)
Definition glue (assignees name : string) : string :=
  (if string_dec assignees "" then assignees else assignees ++ commaNewline) ++ name.

(** The list without its leading empty strings. *)
Fixpoint dropEmpty (names : list string) : list string :=
  match names with
  | [] => []
  | n :: rest => if string_dec n "" then dropEmpty rest else names
  end.

(** The logins [getUser] answers for the identifiers, asked in order. *)
Fixpoint resolveAll {C : Type} (t : DisplayResolved.topic C) (ids : list string)
  : M C (list string) :=
  match ids with
  | [] => ret []
  | id :: rest =>
      name <- DisplayResolved.getUser t id ;;
      names <- resolveAll t rest ;;
      ret (name :: names)
  end.

(** The summary the pass-through closure appends for an issue. *)
Definition carried (repoName : string) (i : storage.Issue)
  : PassThrough.IssueSummary :=
  {| PassThrough.Repo := repoName;
     PassThrough.Number := storage.Number i;
     PassThrough.Title := storage.Title i;
     PassThrough.State := storage.State i;
     PassThrough.AuthorID := storage.AuthorID i;
     PassThrough.AssigneeIDs := storage.AssigneeIDs i |}.

(** The user lookups one visit of the display-resolved closure issues: the
    assignees in their order, then the author. *)
Definition userLookups (i : storage.Issue) : list CacheCall :=
  (map CallReadUser (storage.AssigneeIDs i) ++ [CallReadUser (storage.AuthorID i)])%list.

(** The cache state after a lookup, whatever it answered. *)
Definition perform {C : Type} (c : cache.Cache C) (s : C) (call : CacheCall) : C :=
  match call with
  | CallReadOrgByLogin login => snd (cache.ReadOrgByLogin c login s)
  | CallReadRepoByName orgID repoName => snd (cache.ReadRepoByName c orgID repoName s)
  | CallReadUser userID => snd (cache.ReadUser c userID s)
  end.

(** [Issued c w l w']: from [w] to [w'] the topic issued the lookups [l], in
    that order, and nothing else touched the cache. *)
Definition Issued {C : Type} (c : cache.Cache C) (w : World C) (l : list CacheCall)
           (w' : World C) : Prop :=
  calls w' = (calls w ++ l)%list /\
  cacheState w' = fold_left (perform c) l (cacheState w).

(** How often an action occurs in what a handler rendered. *)
Definition isPageExecute {S : Type} (r : Rendered S) : bool :=
  match r with PageExecute _ => true | _ => false end.

Definition isRenderHTML {S : Type} (r : Rendered S) : bool :=
  match r with RenderHTML _ => true | _ => false end.

Definition isRenderHTMLError {S : Type} (r : Rendered S) : bool :=
  match r with RenderHTMLError _ => true | _ => false end.

Definition isRenderJSON {S : Type} (r : Rendered S) : bool :=
  match r with RenderJSON _ _ => true | _ => false end.

(** The error [getIssues] builds when a lookup of [what] (an organization or
    a repository) named [name] fails with [cause], and when it finds nothing. *)
Definition lookupFailed (what name : string) (cause : error) : error :=
  HTTPError 500 ("unable to get information on " ++ what ++ " " ++ name
                   ++ ": " ++ Error cause).

Definition nothingFound (what name : string) : error :=
  HTTPError 404 ("no information available on " ++ what ++ " " ++ name).

(** The five ways through a [getIssues] whose result is [r]: the organization
    lookup fails, finds nothing, the repository lookup fails, finds nothing,
    or both resolve and the scan of [scan] decides. *)
Inductive Way {C S : Type} (c : cache.Cache C) (orgLogin : string) (w : World C)
          (scanOf : storage.Org -> storage.Repo -> storage.Scan)
          (r : (list S * option error) * World C) : Prop :=
| OrgFailed : forall org cause w1,
    readOrgByLogin c orgLogin w = ((org, Some cause), w1) ->
    r = (([], Some (lookupFailed "organization" orgLogin cause)), w1) ->
    Way c orgLogin w scanOf r
| OrgMissing : forall w1,
    readOrgByLogin c orgLogin w = ((None, None), w1) ->
    r = (([], Some (nothingFound "organization" orgLogin)), w1) ->
    Way c orgLogin w scanOf r
| RepoFailed : forall org w1 repo cause w2,
    readOrgByLogin c orgLogin w = ((Some org, None), w1) ->
    readRepoByName c (storage.OrgID org) "istio" w1 = ((repo, Some cause), w2) ->
    r = (([], Some (lookupFailed "repository" "istio" cause)), w2) ->
    Way c orgLogin w scanOf r
| RepoMissing : forall org w1 w2,
    readOrgByLogin c orgLogin w = ((Some org, None), w1) ->
    readRepoByName c (storage.OrgID org) "istio" w1 = ((None, None), w2) ->
    r = (([], Some (nothingFound "repository" "istio")), w2) ->
    Way c orgLogin w scanOf r
| ScanFailed : forall org repo w2 cause,
    Resolved c orgLogin "istio" w org repo w2 ->
    storage.failure (scanOf org repo) = Some cause ->
    fst r = ([], Some cause) ->
    Way c orgLogin w scanOf r
| Scanned : forall org repo w2,
    Resolved c orgLogin "istio" w org repo w2 ->
    storage.failure (scanOf org repo) = None ->
    snd (fst r) = None ->
    length (fst (fst r)) = length (storage.emitted (scanOf org repo)) ->
    Way c orgLogin w scanOf r.

(** 1 for an error, 0 for nil. *)
Definition failed (e : option error) : nat :=
  match e with Some _ => 1 | None => 0 end.

(** What a display-resolved summary is to the pass-through summary of the
    same issue. *)
Definition Resolves {C : Type} (c : cache.Cache C)
           (sd : DisplayResolved.IssueSummary) (sp : PassThrough.IssueSummary) : Prop :=
  DisplayResolved.Repo sd = PassThrough.Repo sp /\
  DisplayResolved.Number sd = PassThrough.Number sp /\
  DisplayResolved.State sd = PassThrough.State sp /\
  DisplayResolved.Title sd =
    (if Nat.leb (String.length (PassThrough.Title sp)) 50
     then PassThrough.Title sp
     else substring 0 50 (PassThrough.Title sp) ++ ". . .") /\
  exists c0, DisplayResolved.AuthorLogin sd
             = loginOr (fst (cache.ReadUser c (PassThrough.AuthorID sp) c0)).

(** The spec's two kinds of failed resolution: the result is no summaries and
    the error [e], which carries 500 and not 404 (a lookup failure), or 404
    and not 500 (not found). *)
Definition IsLookupFailure {C S : Type} (r : (list S * option error) * World C)
           (e : error) : Prop :=
  fst r = ([], Some e) /\
  FailsWith r http.StatusInternalServerError /\
  ~ FailsWith r http.StatusNotFound.

Definition IsNotFound {C S : Type} (r : (list S * option error) * World C)
           (e : error) : Prop :=
  fst r = ([], Some e) /\
  FailsWith r http.StatusNotFound /\
  ~ FailsWith r http.StatusInternalServerError.

(** [Visits], with something to say of each visit: [P i w s] holds of every
    issue [i], the world [w] its visit started in, and the summary [s] that
    visit appended. *)
Inductive VisitsSuch {C S : Type}
          (visit : storage.Issue -> list S -> M C (list S * option error))
          (P : storage.Issue -> World C -> S -> Prop)
  : list storage.Issue -> World C -> list S -> World C -> Prop :=
| VisitsSuch_nil : forall w, VisitsSuch visit P [] w [] w
| VisitsSuch_cons : forall i rest w s w1 ss w2,
    (forall acc, visit i acc w = (((acc ++ [s])%list, None), w1)) ->
    P i w s ->
    VisitsSuch visit P rest w1 ss w2 ->
    VisitsSuch visit P (i :: rest) w (s :: ss) w2.

(** * Properties *)

(** ** The monad and the scan *)

Lemma bind_run {C A B : Type} (m : M C A) (k : A -> M C B) (w : World C) :
  bind m k w = k (fst (m w)) (snd (m w)).
Proof. unfold bind. destruct (m w); reflexivity. Qed.

Lemma issue_run {C A : Type} (call : CacheCall) (f : C -> A * C) (w : World C) :
  issue call f w =
    (fst (f (cacheState w)),
     {| cacheState := snd (f (cacheState w)); calls := (calls w ++ [call])%list |}).
Proof. unfold issue. destruct (f (cacheState w)); reflexivity. Qed.

(** A scan whose visitor appends one summary per issue and never fails visits
    every emitted issue and ends with the store's own outcome. *)
Lemma runScan_appending {C S : Type}
      (visit : storage.Issue -> list S -> M C (list S * option error))
      (l : list storage.Issue) (failure : option error) :
  forall w ss w', Visits visit l w ss w' ->
  forall acc, runScan l failure visit acc w = (((acc ++ ss)%list, failure), w').
Proof.
  induction 1 as [w | i rest w s w1 ss w2 Hv _ IH]; intro acc; simpl.
  - unfold ret. now rewrite app_nil_r.
  - rewrite bind_run, Hv. simpl. rewrite IH, <- app_assoc. reflexivity.
Qed.

Lemma Visits_length {C S : Type}
      (visit : storage.Issue -> list S -> M C (list S * option error)) l w ss w' :
  Visits visit l w ss w' -> length ss = length l.
Proof. induction 1; simpl; congruence. Qed.

(** The summaries of a run of visits, position by position. *)
Lemma Visits_Forall2 {C S : Type}
      (visit : storage.Issue -> list S -> M C (list S * option error))
      (P : storage.Issue -> S -> Prop) :
  (forall i w s w1,
      (forall acc, visit i acc w = (((acc ++ [s])%list, None), w1)) -> P i s) ->
  forall l w ss w', Visits visit l w ss w' -> Forall2 P l ss.
Proof.
  intros HP l w ss w' H.
  induction H as [w | i rest w s w1 ss w2 Hv _ IH]; constructor; eauto.
Qed.

(** ** The display-resolved variant *)

Section DisplayResolvedFacts.
Import DisplayResolved.
Context {C : Type}.
Variable t : topic C.

Lemma getUser_run (authorID : string) (w : World C) :
  getUser t authorID w =
    (loginOr (fst (cache.ReadUser (cache t) authorID (cacheState w))),
     {| cacheState := snd (cache.ReadUser (cache t) authorID (cacheState w));
        calls := (calls w ++ [CallReadUser authorID])%list |}).
Proof.
  unfold getUser, readUser. rewrite bind_run, issue_run. simpl.
  destruct (cache.ReadUser (cache t) authorID (cacheState w)) as [[[u|] [e|]] c'];
    reflexivity.
Qed.

(** One visit, unfolded: the assignees are looked up first, the author last. *)
Lemma visit_run (repoName : string) (i : storage.Issue) (acc : list IssueSummary)
      (w : World C) :
  visit t repoName i acc w =
    let a := assigneesLoop t (storage.AssigneeIDs i) "" w in
    let u := getUser t (storage.AuthorID i) (snd a) in
    (((acc ++ [{| Repo := repoName;
                  Number := storage.Number i;
                  Title := if Nat.ltb 50 (String.length (storage.Title i))
                           then substring 0 50 (storage.Title i) ++ ". . ."
                           else storage.Title i;
                  State := storage.State i;
                  AuthorLogin := fst u;
                  Assignees := fst a |}])%list, None), snd u).
Proof. unfold visit. rewrite !bind_run. reflexivity. Qed.

Lemma visit_appends (repoName : string) (i : storage.Issue) (w : World C) :
  exists s w1, forall acc, visit t repoName i acc w = (((acc ++ [s])%list, None), w1).
Proof. eexists. eexists. intro acc. rewrite visit_run. reflexivity. Qed.

Lemma Visits_total (repoName : string) (l : list storage.Issue) :
  forall w, exists ss w', Visits (visit t repoName) l w ss w'.
Proof.
  induction l as [|i rest IH]; intro w.
  - exists [], w. constructor.
  - destruct (visit_appends repoName i w) as (s & w1 & Hs).
    destruct (IH w1) as (ss & w2 & Hss).
    exists (s :: ss), w2. econstructor; eassumption.
Qed.

(** One summary, field by field. *)
Lemma visit_fields (repoName : string) (i : storage.Issue) (w : World C) s w1 :
  (forall acc, visit t repoName i acc w = (((acc ++ [s])%list, None), w1)) ->
  Repo s = repoName /\
  Number s = storage.Number i /\
  State s = storage.State i /\
  Title s = (if Nat.ltb 50 (String.length (storage.Title i))
             then substring 0 50 (storage.Title i) ++ ". . ."
             else storage.Title i) /\
  Assignees s = fst (assigneesLoop t (storage.AssigneeIDs i) "" w) /\
  AuthorLogin s =
    fst (getUser t (storage.AuthorID i)
           (snd (assigneesLoop t (storage.AssigneeIDs i) "" w))).
Proof.
  intro H. specialize (H []). rewrite visit_run in H. simpl in H.
  injection H as Hs _. subst s. simpl. repeat split; reflexivity.
Qed.

(** The three ways out of [getIssuesForRepo]. *)
Lemma getIssuesForRepo_error orgID repoName w repo e w1 :
  readRepoByName (cache t) orgID repoName w = ((repo, Some e), w1) ->
  getIssuesForRepo t orgID repoName w =
    (([], Some (HTTPError 500
                  ("unable to get information on repository " ++ repoName
                     ++ ": " ++ Error e))), w1).
Proof.
  intro H. unfold getIssuesForRepo. rewrite bind_run, H. simpl.
  destruct repo; reflexivity.
Qed.

Lemma getIssuesForRepo_missing orgID repoName w w1 :
  readRepoByName (cache t) orgID repoName w = ((None, None), w1) ->
  getIssuesForRepo t orgID repoName w =
    (([], Some (HTTPError 404 ("no information available on repository " ++ repoName))),
     w1).
Proof. intro H. unfold getIssuesForRepo. rewrite bind_run, H. reflexivity. Qed.

Lemma getIssuesForRepo_found orgID repoName w repo w1 :
  readRepoByName (cache t) orgID repoName w = ((Some repo, None), w1) ->
  forall ss w2,
    Visits (visit t repoName)
           (storage.emitted
              (storage.QueryOpenIssuesByRepo (store t) orgID (storage.RepoID repo)))
           w1 ss w2 ->
    getIssuesForRepo t orgID repoName w =
      (match storage.failure
               (storage.QueryOpenIssuesByRepo (store t) orgID (storage.RepoID repo)) with
       | Some e => ([], Some e)
       | None => (ss, None)
       end, w2).
Proof.
  intros H ss w2 Hv. unfold getIssuesForRepo. rewrite bind_run, H. simpl.
  rewrite bind_run. unfold scanIssues.
  rewrite (runScan_appending _ _ _ _ _ _ Hv). simpl.
  destruct (storage.failure _); reflexivity.
Qed.

Lemma getIssues_error orgLogin w org e w1 :
  readOrgByLogin (cache t) orgLogin w = ((org, Some e), w1) ->
  getIssues t orgLogin w =
    (([], Some (HTTPError 500
                  ("unable to get information on organization " ++ orgLogin
                     ++ ": " ++ Error e))), w1).
Proof.
  intro H. unfold getIssues. rewrite bind_run, H. simpl. destruct org; reflexivity.
Qed.

Lemma getIssues_missing orgLogin w w1 :
  readOrgByLogin (cache t) orgLogin w = ((None, None), w1) ->
  getIssues t orgLogin w =
    (([], Some (HTTPError 404 ("no information available on organization " ++ orgLogin))),
     w1).
Proof. intro H. unfold getIssues. rewrite bind_run, H. reflexivity. Qed.

Lemma getIssues_found orgLogin w org w1 :
  readOrgByLogin (cache t) orgLogin w = ((Some org, None), w1) ->
  getIssues t orgLogin w = getIssuesForRepo t (storage.OrgID org) "istio" w1.
Proof. intro H. unfold getIssues. rewrite bind_run, H. reflexivity. Qed.

(** Whatever the cache and the store answer, a failing [getIssues] returns
    the nil slice. *)
Lemma getIssues_failure_nil orgLogin w issues e w' :
  getIssues t orgLogin w = ((issues, Some e), w') -> issues = [].
Proof.
  unfold getIssues. rewrite bind_run.
  destruct (readOrgByLogin (cache t) orgLogin w) as [[[org|] [e0|]] w1]; simpl;
    try (unfold ret; intro H; injection H; intros; subst; reflexivity).
  unfold getIssuesForRepo. rewrite bind_run.
  destruct (readRepoByName (cache t) (storage.OrgID org) "istio" w1)
    as [[[repo|] [e0|]] w2]; simpl;
    try (unfold ret; intro H; injection H; intros; subst; reflexivity).
  rewrite bind_run.
  destruct (scanIssues _ _ _ w2) as [[ss [e1|]] w3]; simpl; unfold ret;
    intro H; injection H; intros; subst; try reflexivity; discriminate.
Qed.
End DisplayResolvedFacts.

(** ** Byte strings *)

Section Strings.
Lemma append_nil_r (s : string) : s ++ "" = s.
Proof. induction s as [|b s IH]; simpl; congruence. Qed.

Lemma append_assoc (a b c : string) : (a ++ b) ++ c = a ++ (b ++ c).
Proof. induction a as [|x a IH]; simpl; congruence. Qed.

Lemma length_append (a b : string) :
  String.length (a ++ b) = String.length a + String.length b.
Proof. induction a as [|x a IH]; simpl; congruence. Qed.

Lemma append_eq_nil (a b : string) : a ++ b = "" -> a = "" /\ b = "".
Proof. destruct a; simpl; intro H; [auto | discriminate]. Qed.

(** [s[0:n]] has [n] bytes when [s] has at least that many. *)
Lemma length_prefix (n : nat) :
  forall s, n <= String.length s -> String.length (substring 0 n s) = n.
Proof.
  induction n as [|n IH]; intros [|b s] H; simpl in *; try reflexivity; try lia.
  rewrite IH; [reflexivity | lia].
Qed.

Lemma substring_all (s : string) : substring 0 (String.length s) s = s.
Proof. induction s as [|b s IH]; simpl; congruence. Qed.

(** A prefix and the rest make up the string. *)
Lemma prefix_suffix (n : nat) :
  forall s, substring 0 n s ++ substring n (String.length s - n) s = s.
Proof.
  induction n as [|n IH]; intros [|b s]; simpl; try reflexivity.
  - now rewrite substring_all.
  - now rewrite IH.
Qed.

Lemma isASCII_append (a b : string) :
  isASCII (a ++ b) = isASCII a && isASCII b.
Proof.
  induction a as [|x a IH]; simpl; [reflexivity|].
  rewrite IH. now rewrite andb_assoc.
Qed.

Lemma isASCII_byte (b : ascii) :
  N.ltb (N_of_ascii b) 128 = true -> isContinuation b = false.
Proof.
  destruct b as [b0 b1 b2 b3 b4 b5 b6 b7].
  destruct b0, b1, b2, b3, b4, b5, b6, b7; vm_compute; congruence.
Qed.

(** On ASCII text a character is a byte. *)
Lemma charCount_ASCII (s : string) :
  isASCII s = true -> charCount s = String.length s.
Proof.
  induction s as [|b s IH]; simpl; [reflexivity|].
  intro H. apply andb_true_iff in H as [Hb Hs].
  rewrite (isASCII_byte b Hb), (IH Hs). reflexivity.
Qed.

Lemma isASCII_prefix (n : nat) (s : string) :
  isASCII s = true -> isASCII (substring 0 n s) = true.
Proof.
  intro H. rewrite <- (prefix_suffix n s), isASCII_append in H.
  now apply andb_true_iff in H.
Qed.
End Strings.

(** ** The assignee string *)

Lemma glue_nonempty (assignees name : string) :
  assignees <> "" -> glue assignees name = assignees ++ commaNewline ++ name.
Proof.
  intro H. unfold glue. destruct (string_dec assignees ""); [contradiction|].
  apply append_assoc.
Qed.

Lemma fold_glue_nonempty (names : list string) :
  forall assignees, assignees <> "" ->
    fold_left glue names assignees =
      match names with
      | [] => assignees
      | _ => assignees ++ commaNewline ++ join commaNewline names
      end.
Proof.
  induction names as [|n rest IH]; intros assignees Hne; [reflexivity|].
  simpl fold_left. rewrite (glue_nonempty _ _ Hne), IH.
  - destruct rest as [|m rest]; [reflexivity|].
    change (join commaNewline (n :: m :: rest))
      with (n ++ commaNewline ++ join commaNewline (m :: rest)).
    now rewrite !append_assoc.
  - intro H. apply append_eq_nil in H as [H _]. contradiction.
Qed.

(** The loop joins the names that remain once the leading empty ones are
    dropped: an empty string built so far is taken for "no name yet". *)
Lemma fold_glue_dropEmpty (names : list string) :
  fold_left glue names "" = join commaNewline (dropEmpty names).
Proof.
  induction names as [|n rest IH]; [reflexivity|].
  simpl. destruct (string_dec n "") as [->|Hn]; [exact IH|].
  change (glue "" n) with n. rewrite (fold_glue_nonempty rest n Hn).
  destruct rest; reflexivity.
Qed.

Lemma dropEmpty_nonempty (names : list string) :
  Forall (fun n => n <> "") names -> dropEmpty names = names.
Proof.
  destruct 1 as [|n rest Hn _]; [reflexivity|].
  simpl. destruct (string_dec n ""); [contradiction | reflexivity].
Qed.

Section Assignees.
Import DisplayResolved.
Context {C : Type}.
Variable t : topic C.

Lemma assigneesLoop_run (ids : list string) :
  forall assignees w,
    assigneesLoop t ids assignees w =
      (fold_left glue (fst (resolveAll t ids w)) assignees, snd (resolveAll t ids w)).
Proof.
  induction ids as [|id rest IH]; intros assignees w; [reflexivity|].
  simpl. rewrite !bind_run, IH. simpl. reflexivity.
Qed.

(** Where no resolved login is empty, the assignee string is the logins
    joined by a comma and a newline, in the order of the identifiers. *)
Lemma assigneesLoop_join (ids : list string) (w : World C) :
  Forall (fun n => n <> "") (fst (resolveAll t ids w)) ->
  fst (assigneesLoop t ids "" w) = join commaNewline (fst (resolveAll t ids w)).
Proof.
  intro H. rewrite assigneesLoop_run. simpl.
  now rewrite fold_glue_dropEmpty, dropEmpty_nonempty.
Qed.

Lemma resolveAll_length (ids : list string) :
  forall w, length (fst (resolveAll t ids w)) = length ids.
Proof.
  induction ids as [|id rest IH]; intro w; [reflexivity|].
  simpl. rewrite !bind_run. simpl. now rewrite IH.
Qed.
End Assignees.

(** ** The pass-through variant *)

Section PassThroughFacts.
Import PassThrough.
Context {C : Type}.
Variable t : topic C.

Lemma Visits_carried (repoName : string) (l : list storage.Issue) (w : World C) :
  Visits (visit (C := C) repoName) l w (map (carried repoName) l) w.
Proof.
  induction l as [|i rest IH]; simpl; [constructor|].
  econstructor; [|exact IH]. intro acc. reflexivity.
Qed.

Lemma raw_getIssues_error orgLogin w org e w1 :
  readOrgByLogin (cache t) orgLogin w = ((org, Some e), w1) ->
  getIssues t orgLogin w =
    (([], Some (HTTPError 500
                  ("unable to get information on organization " ++ orgLogin
                     ++ ": " ++ Error e))), w1).
Proof.
  intro H. unfold getIssues. rewrite bind_run, H. simpl. destruct org; reflexivity.
Qed.

Lemma raw_getIssues_missing orgLogin w w1 :
  readOrgByLogin (cache t) orgLogin w = ((None, None), w1) ->
  getIssues t orgLogin w =
    (([], Some (HTTPError 404 ("no information available on organization " ++ orgLogin))),
     w1).
Proof. intro H. unfold getIssues. rewrite bind_run, H. reflexivity. Qed.

Lemma raw_getIssues_repo_error orgLogin w org w1 repo e w2 :
  readOrgByLogin (cache t) orgLogin w = ((Some org, None), w1) ->
  readRepoByName (cache t) (storage.OrgID org) "istio" w1 = ((repo, Some e), w2) ->
  getIssues t orgLogin w =
    (([], Some (HTTPError 500
                  ("unable to get information on repository istio: " ++ Error e))), w2).
Proof.
  intros H1 H2. unfold getIssues. rewrite bind_run, H1. simpl.
  rewrite bind_run, H2. simpl. destruct repo; reflexivity.
Qed.

Lemma raw_getIssues_repo_missing orgLogin w org w1 w2 :
  readOrgByLogin (cache t) orgLogin w = ((Some org, None), w1) ->
  readRepoByName (cache t) (storage.OrgID org) "istio" w1 = ((None, None), w2) ->
  getIssues t orgLogin w =
    (([], Some (HTTPError 404 "no information available on repository istio")), w2).
Proof.
  intros H1 H2. unfold getIssues. rewrite bind_run, H1. simpl.
  rewrite bind_run, H2. reflexivity.
Qed.

Lemma raw_getIssues_found orgLogin w org repo w2 :
  Resolved (cache t) orgLogin "istio" w org repo w2 ->
  getIssues t orgLogin w =
    (match storage.failure
             (storage.QueryIssuesByRepo (store t) (storage.OrgID org)
                (storage.RepoID repo)) with
     | Some e => ([], Some e)
     | None =>
         (map (carried "istio")
              (storage.emitted
                 (storage.QueryIssuesByRepo (store t) (storage.OrgID org)
                    (storage.RepoID repo))), None)
     end, w2).
Proof.
  intros (w1 & H1 & H2). unfold getIssues. rewrite bind_run, H1. simpl.
  rewrite bind_run, H2. simpl. rewrite bind_run. unfold scanIssues.
  rewrite (runScan_appending _ _ _ _ _ _ (Visits_carried "istio" _ w2)). simpl.
  destruct (storage.failure _); reflexivity.
Qed.
End PassThroughFacts.

(** ** The lookups a call issues *)

Lemma Issued_nil {C : Type} (c : cache.Cache C) (w : World C) : Issued c w [] w.
Proof. split; simpl; [now rewrite app_nil_r | reflexivity]. Qed.

Lemma Issued_app {C : Type} (c : cache.Cache C) (w w1 w2 : World C) l1 l2 :
  Issued c w l1 w1 -> Issued c w1 l2 w2 -> Issued c w (l1 ++ l2)%list w2.
Proof.
  intros [Hc1 Hs1] [Hc2 Hs2]. split.
  - rewrite Hc2, Hc1. now rewrite app_assoc.
  - rewrite Hs2, Hs1. now rewrite fold_left_app.
Qed.

Lemma readOrgByLogin_Issued {C : Type} (c : cache.Cache C) login (w : World C) :
  Issued c w [CallReadOrgByLogin login] (snd (readOrgByLogin c login w)).
Proof. unfold readOrgByLogin. rewrite issue_run. split; reflexivity. Qed.

Lemma readRepoByName_Issued {C : Type} (c : cache.Cache C) orgID repoName (w : World C) :
  Issued c w [CallReadRepoByName orgID repoName] (snd (readRepoByName c orgID repoName w)).
Proof. unfold readRepoByName. rewrite issue_run. split; reflexivity. Qed.

Lemma Resolved_Issued {C : Type} (c : cache.Cache C) orgLogin repoName
      (w : World C) org repo w2 :
  Resolved c orgLogin repoName w org repo w2 ->
  Issued c w [CallReadOrgByLogin orgLogin;
              CallReadRepoByName (storage.OrgID org) repoName] w2.
Proof.
  intros (w1 & H1 & H2).
  pose proof (readOrgByLogin_Issued c orgLogin w) as I1. rewrite H1 in I1.
  pose proof (readRepoByName_Issued c (storage.OrgID org) repoName w1) as I2.
  rewrite H2 in I2. exact (Issued_app c _ _ _ _ _ I1 I2).
Qed.

Section DisplayResolvedLookups.
Import DisplayResolved.
Context {C : Type}.
Variable t : topic C.

Lemma getUser_Issued (userID : string) (w : World C) :
  Issued (cache t) w [CallReadUser userID] (snd (getUser t userID w)).
Proof. rewrite getUser_run. split; reflexivity. Qed.

Lemma assigneesLoop_Issued (ids : list string) :
  forall assignees w,
    Issued (cache t) w (map CallReadUser ids) (snd (assigneesLoop t ids assignees w)).
Proof.
  induction ids as [|id rest IH]; intros assignees w; [apply Issued_nil|].
  simpl assigneesLoop. rewrite bind_run.
  change (map CallReadUser (id :: rest))
    with ([CallReadUser id] ++ map CallReadUser rest)%list.
  eapply Issued_app; [apply getUser_Issued | apply IH].
Qed.

Lemma visit_Issued (repoName : string) (i : storage.Issue) acc (w : World C) :
  Issued (cache t) w (userLookups i) (snd (visit t repoName i acc w)).
Proof.
  rewrite visit_run. simpl. unfold userLookups.
  eapply Issued_app; [apply assigneesLoop_Issued | apply getUser_Issued].
Qed.

Lemma Visits_Issued (repoName : string) l (w : World C) ss w' :
  Visits (visit t repoName) l w ss w' ->
  Issued (cache t) w (flat_map userLookups l) w'.
Proof.
  induction 1 as [w | i rest w s w1 ss w2 Hv _ IH]; [apply Issued_nil|].
  simpl. eapply Issued_app; [|exact IH].
  pose proof (visit_Issued repoName i [] w) as H. now rewrite Hv in H.
Qed.
End DisplayResolvedLookups.

Lemma Visits_such {C S : Type}
      (visit : storage.Issue -> list S -> M C (list S * option error))
      (P : storage.Issue -> World C -> S -> Prop) :
  (forall i w s w1,
      (forall acc, visit i acc w = (((acc ++ [s])%list, None), w1)) -> P i w s) ->
  forall l w ss w', Visits visit l w ss w' -> VisitsSuch visit P l w ss w'.
Proof.
  intros HP l w ss w' H.
  induction H as [w | i rest w s w1 ss w2 Hv _ IH]; econstructor; eauto.
Qed.

(** * The claims *)

(** A status is one kind of failure only. *)
Lemma FailsWith_one_status {C S : Type} (r : (list S * option error) * World C)
      (a b : Z) :
  FailsWith r a -> FailsWith r b -> a = b.
Proof.
  intros (e & He & Ha) (e' & He' & Hb). rewrite He in He'.
  injection He' as <-. congruence.
Qed.

Lemma lookupFailed_IsLookupFailure {C S : Type} (r : (list S * option error) * World C)
      (what name : string) (cause : error) :
  fst r = ([], Some (lookupFailed what name cause)) ->
  IsLookupFailure r (lookupFailed what name cause).
Proof.
  intro H. split; [exact H|]. split.
  - eexists. split; [exact H | reflexivity].
  - intros (e & He & Hs). rewrite H in He. injection He as <-. discriminate.
Qed.

Lemma nothingFound_IsNotFound {C S : Type} (r : (list S * option error) * World C)
      (what name : string) :
  fst r = ([], Some (nothingFound what name)) ->
  IsNotFound r (nothingFound what name).
Proof.
  intro H. split; [exact H|]. split.
  - eexists. split; [exact H | reflexivity].
  - intros (e & He & Hs). rewrite H in He. injection He as <-. discriminate.
Qed.

(** C1: for every organization login and, in [getIssuesForRepo], every
    organization identifier and repository name: a cache lookup that returns
    an error makes the resolver fail with the error [util.HTTPErrorf] builds
    for status 500 from that error, which carries 500 and not 404; a lookup
    that returns nil without error makes it fail with the one built for
    status 404, which carries 404 and not 500.  That is so for the
    organization lookup of both variants' [getIssues], for the repository
    lookup of [getIssuesForRepo] under any name, and for the repository
    lookup both variants' [getIssues] make under the name ["istio"] (the
    pass-through variant has no other). *)
Theorem lookup_error_is_500_and_not_found_is_404 :
  forall (C : Type) (c : cache.Cache C)
         (d : DisplayResolved.topic C) (p : PassThrough.topic C),
    DisplayResolved.cache d = c ->
    PassThrough.cache p = c ->
    (forall (orgLogin : string) (w : World C),
        (forall org e w1,
            readOrgByLogin c orgLogin w = ((org, Some e), w1) ->
            IsLookupFailure (DisplayResolved.getIssues d orgLogin w)
                            (lookupFailed "organization" orgLogin e) /\
            IsLookupFailure (PassThrough.getIssues p orgLogin w)
                            (lookupFailed "organization" orgLogin e)) /\
        (forall w1,
            readOrgByLogin c orgLogin w = ((None, None), w1) ->
            IsNotFound (DisplayResolved.getIssues d orgLogin w)
                       (nothingFound "organization" orgLogin) /\
            IsNotFound (PassThrough.getIssues p orgLogin w)
                       (nothingFound "organization" orgLogin)) /\
        (forall org w1 repo e w2,
            readOrgByLogin c orgLogin w = ((Some org, None), w1) ->
            readRepoByName c (storage.OrgID org) "istio" w1 = ((repo, Some e), w2) ->
            IsLookupFailure (DisplayResolved.getIssues d orgLogin w)
                            (lookupFailed "repository" "istio" e) /\
            IsLookupFailure (PassThrough.getIssues p orgLogin w)
                            (lookupFailed "repository" "istio" e)) /\
        (forall org w1 w2,
            readOrgByLogin c orgLogin w = ((Some org, None), w1) ->
            readRepoByName c (storage.OrgID org) "istio" w1 = ((None, None), w2) ->
            IsNotFound (DisplayResolved.getIssues d orgLogin w)
                       (nothingFound "repository" "istio") /\
            IsNotFound (PassThrough.getIssues p orgLogin w)
                       (nothingFound "repository" "istio"))) /\
    (forall (orgID repoName : string) (w : World C),
        (forall repo e w1,
            readRepoByName c orgID repoName w = ((repo, Some e), w1) ->
            IsLookupFailure (DisplayResolved.getIssuesForRepo d orgID repoName w)
                            (lookupFailed "repository" repoName e)) /\
        (forall w1,
            readRepoByName c orgID repoName w = ((None, None), w1) ->
            IsNotFound (DisplayResolved.getIssuesForRepo d orgID repoName w)
                       (nothingFound "repository" repoName))).
Proof.
  intros C c d p Hd Hp. split.
  - intros orgLogin w. split; [|split; [|split]].
    + intros org e w1 H. split; apply lookupFailed_IsLookupFailure.
      * rewrite <- Hd in H. now rewrite (getIssues_error d _ _ _ _ _ H).
      * rewrite <- Hp in H. now rewrite (raw_getIssues_error p _ _ _ _ _ H).
    + intros w1 H. split; apply nothingFound_IsNotFound.
      * rewrite <- Hd in H. now rewrite (getIssues_missing d _ _ _ H).
      * rewrite <- Hp in H. now rewrite (raw_getIssues_missing p _ _ _ H).
    + intros org w1 repo e w2 H H0. split; apply lookupFailed_IsLookupFailure.
      * rewrite <- Hd in H, H0.
        now rewrite (getIssues_found d _ _ _ _ H),
          (getIssuesForRepo_error d _ _ _ _ _ _ H0).
      * rewrite <- Hp in H, H0.
        now rewrite (raw_getIssues_repo_error p _ _ _ _ _ _ _ H H0).
    + intros org w1 w2 H H0. split; apply nothingFound_IsNotFound.
      * rewrite <- Hd in H, H0.
        now rewrite (getIssues_found d _ _ _ _ H),
          (getIssuesForRepo_missing d _ _ _ _ H0).
      * rewrite <- Hp in H, H0.
        now rewrite (raw_getIssues_repo_missing p _ _ _ _ _ H H0).
  - intros orgID repoName w. split.
    + intros repo e w1 H. apply lookupFailed_IsLookupFailure.
      rewrite <- Hd in H. now rewrite (getIssuesForRepo_error d _ _ _ _ _ _ H).
    + intros w1 H. apply nothingFound_IsNotFound.
      rewrite <- Hd in H. now rewrite (getIssuesForRepo_missing d _ _ _ _ H).
Qed.

Lemma lookup_error_is_500_and_not_found_is_404_witness :
  let d := Demo.resolved (Demo.scanOf Demo.threeIssues None) in
  let p := Demo.raw (Demo.scanOf Demo.threeIssues None) in
  (FailsWith (DisplayResolved.getIssues d "broken" Demo.start) 500 /\
   FailsWith (PassThrough.getIssues p "broken" Demo.start) 500) /\
  (FailsWith (DisplayResolved.getIssues d "nobody" Demo.start) 404 /\
   FailsWith (PassThrough.getIssues p "nobody" Demo.start) 404) /\
  (FailsWith (DisplayResolved.getIssues d "badrepo" Demo.start) 500 /\
   FailsWith (PassThrough.getIssues p "badrepo" Demo.start) 500) /\
  (FailsWith (DisplayResolved.getIssues d "norepo" Demo.start) 404 /\
   FailsWith (PassThrough.getIssues p "norepo" Demo.start) 404) /\
  fst (DisplayResolved.getIssuesForRepo d "o3" "bots" Demo.start)
    = ([], Some (HTTPError 500 "unable to get information on repository bots: timeout")) /\
  fst (DisplayResolved.getIssuesForRepo d "o2" "bots" Demo.start)
    = ([], Some (HTTPError 404 "no information available on repository bots")).
Proof.
  intros d p.
  destruct (lookup_error_is_500_and_not_found_is_404
              unit Demo.demoCache d p eq_refl eq_refl) as (T & R).
  split; [|split; [|split; [|split; [|split]]]].
  - destruct (T "broken" Demo.start) as (H & _).
    destruct (H None (PlainError "timeout") _ eq_refl) as ((_ & Hd & _) & (_ & Hp & _)).
    split; assumption.
  - destruct (T "nobody" Demo.start) as (_ & H & _).
    destruct (H _ eq_refl) as ((_ & Hd & _) & (_ & Hp & _)).
    split; assumption.
  - destruct (T "badrepo" Demo.start) as (_ & _ & H & _).
    destruct (H _ _ None (PlainError "timeout") _ eq_refl eq_refl)
      as ((_ & Hd & _) & (_ & Hp & _)).
    split; assumption.
  - destruct (T "norepo" Demo.start) as (_ & _ & _ & H).
    destruct (H _ _ _ eq_refl eq_refl) as ((_ & Hd & _) & (_ & Hp & _)).
    split; assumption.
  - destruct (R "o3" "bots" Demo.start) as (H & _).
    destruct (H None (PlainError "timeout") _ eq_refl) as (He & _). exact He.
  - destruct (R "o2" "bots" Demo.start) as (_ & H).
    destruct (H _ eq_refl) as (He & _). exact He.
Defined.

(** C2: when both lookups succeed and the store's scan ends in an error after
    its [N] issues have been visited, [N >= 0], the resolver returns no
    summaries and the scan's own error, in both variants: in the
    display-resolved one the [N] visits did happen ([Visits], with [N]
    summaries built), and their summaries are dropped. *)
Theorem scan_failure_returns_nil_and_the_scan_error :
  forall (C : Type) (c : cache.Cache C)
         (d : DisplayResolved.topic C) (p : PassThrough.topic C),
    DisplayResolved.cache d = c ->
    PassThrough.cache p = c ->
    forall (orgLogin : string) (w : World C) org repo w2,
      Resolved c orgLogin "istio" w org repo w2 ->
      (forall (N : nat) (e : error),
          let scan := storage.QueryOpenIssuesByRepo (DisplayResolved.store d)
                        (storage.OrgID org) (storage.RepoID repo) in
          length (storage.emitted scan) = N ->
          storage.failure scan = Some e ->
          exists built w',
            Visits (DisplayResolved.visit d "istio") (storage.emitted scan) w2 built w' /\
            length built = N /\
            DisplayResolved.getIssues d orgLogin w = (([], Some e), w')) /\
      (forall (N : nat) (e : error),
          let scan := storage.QueryIssuesByRepo (PassThrough.store p)
                        (storage.OrgID org) (storage.RepoID repo) in
          length (storage.emitted scan) = N ->
          storage.failure scan = Some e ->
          PassThrough.getIssues p orgLogin w = (([], Some e), w2)).
Proof.
  intros C c d p Hd Hp orgLogin w org repo w2 HR. split.
  - intros N e scan HN He. subst c. destruct HR as (w1 & H1 & H2).
    destruct (Visits_total d "istio" (storage.emitted scan) w2) as (built & w' & Hv).
    exists built, w'. split; [exact Hv|]. split.
    + rewrite (Visits_length _ _ _ _ _ Hv). exact HN.
    + rewrite (getIssues_found d _ _ _ _ H1).
      rewrite (getIssuesForRepo_found d _ _ _ _ _ H2 _ _ Hv).
      fold scan. rewrite He. reflexivity.
  - intros N e scan HN He. rewrite <- Hp in HR.
    rewrite (raw_getIssues_found p _ _ _ _ _ HR). fold scan. rewrite He. reflexivity.
Qed.

Lemma scan_failure_returns_nil_and_the_scan_error_witness :
  let failing := Demo.scanOf Demo.threeIssues (Some (PlainError "connection lost")) in
  fst (DisplayResolved.getIssues (Demo.resolved failing) "istio" Demo.start)
    = ([], Some (PlainError "connection lost")) /\
  fst (PassThrough.getIssues (Demo.raw failing) "istio" Demo.start)
    = ([], Some (PlainError "connection lost")).
Proof.
  intro failing.
  assert (HR : Resolved Demo.demoCache "istio" "istio" Demo.start Demo.istioOrg
                        Demo.istioRepo
                        {| cacheState := tt;
                           calls := [CallReadOrgByLogin "istio";
                                     CallReadRepoByName "o1" "istio"] |}).
  { eexists. split; reflexivity. }
  destruct (scan_failure_returns_nil_and_the_scan_error
              unit Demo.demoCache (Demo.resolved failing) (Demo.raw failing)
              eq_refl eq_refl "istio" Demo.start _ _ _ HR) as (Hd & Hp).
  split.
  - destruct (Hd 3 (PlainError "connection lost") eq_refl eq_refl)
      as (built & w' & _ & _ & H).
    rewrite H. reflexivity.
  - rewrite (Hp 3 (PlainError "connection lost") eq_refl eq_refl). reflexivity.
Defined.

(** The title of the summary a visit appends. *)
Lemma visit_title {C : Type} (t : DisplayResolved.topic C) (repoName : string)
      (i : storage.Issue) (acc : list DisplayResolved.IssueSummary) (w : World C) :
  exists s w',
    DisplayResolved.visit t repoName i acc w = (((acc ++ [s])%list, None), w') /\
    DisplayResolved.Title s =
      if Nat.leb (String.length (storage.Title i)) 50
      then storage.Title i
      else substring 0 50 (storage.Title i) ++ ". . .".
Proof.
  rewrite visit_run. eexists. eexists. split; [reflexivity|]. simpl.
  destruct (Nat.ltb_spec 50 (String.length (storage.Title i)));
    destruct (Nat.leb_spec (String.length (storage.Title i)) 50);
    try reflexivity; lia.
Qed.

(** C3, as the code has it: the title is measured in bytes.  A title of
    exactly 50 bytes is left as it is, and a longer one (one of 51 bytes, say)
    becomes its first 50 bytes followed by [". . ."]; on a title of ASCII
    characters only, where a character is a byte, that is 50 characters. *)
Theorem title_truncated_at_50_bytes :
  forall (C : Type) (t : DisplayResolved.topic C) (repoName : string)
         (i : storage.Issue) (acc : list DisplayResolved.IssueSummary) (w : World C),
  exists s w',
    DisplayResolved.visit t repoName i acc w = (((acc ++ [s])%list, None), w') /\
    (String.length (storage.Title i) = 50 ->
     DisplayResolved.Title s = storage.Title i) /\
    (50 < String.length (storage.Title i) ->
     DisplayResolved.Title s = substring 0 50 (storage.Title i) ++ ". . ." /\
     String.length (substring 0 50 (storage.Title i)) = 50) /\
    (isASCII (storage.Title i) = true ->
     charCount (storage.Title i) = 50 ->
     DisplayResolved.Title s = storage.Title i) /\
    (isASCII (storage.Title i) = true ->
     50 < charCount (storage.Title i) ->
     DisplayResolved.Title s = substring 0 50 (storage.Title i) ++ ". . ." /\
     charCount (substring 0 50 (storage.Title i)) = 50).
Proof.
  intros C t repoName i acc w.
  destruct (visit_title t repoName i acc w) as (s & w' & Hv & Ht).
  exists s, w'. split; [exact Hv|].
  assert (Hshort : String.length (storage.Title i) = 50 ->
                   DisplayResolved.Title s = storage.Title i).
  { intro H. rewrite Ht, H. reflexivity. }
  assert (Hlong : 50 < String.length (storage.Title i) ->
                  DisplayResolved.Title s = substring 0 50 (storage.Title i) ++ ". . ." /\
                  String.length (substring 0 50 (storage.Title i)) = 50).
  { intro H. split.
    - rewrite Ht. destruct (Nat.leb_spec (String.length (storage.Title i)) 50);
        [lia | reflexivity].
    - apply length_prefix. lia. }
  split; [exact Hshort|]. split; [exact Hlong|]. split.
  - intros Ha Hc. apply Hshort. now rewrite <- (charCount_ASCII _ Ha).
  - intros Ha Hc. rewrite (charCount_ASCII _ Ha) in Hc.
    destruct (Hlong Hc) as [H1 H2]. split; [exact H1|].
    rewrite (charCount_ASCII _ (isASCII_prefix 50 _ Ha)). exact H2.
Qed.

(** A title of exactly 50 characters, the last of them [e-acute], is 51 bytes
    long: it is cut after 50 bytes, in the middle of that character. *)
Lemma title_of_50_characters_is_cut :
  let title := Demo.a49 ++ Demo.eAcute in
  let cut := Demo.a49 ++ String (ascii_of_nat 195) ". . ." in
  charCount title = 50 /\
  map DisplayResolved.Title
      (fst (fst (DisplayResolved.visit
                   (Demo.resolved (Demo.scanOf [] None)) "istio"
                   (Demo.issue 3 title "u1" []) [] Demo.start))) = [cut] /\
  cut <> title.
Proof.
  intros title cut. split; [reflexivity|]. split; [reflexivity|].
  intro H. apply (f_equal String.length) in H. vm_compute in H. discriminate.
Qed.

(** C10: the title is measured and cut in bytes.  A title of at most 50 bytes
    is kept; a longer one becomes its first 50 bytes followed by the 5 bytes
    of [". . ."], 55 bytes in all; so no title of a summary exceeds 55 bytes.
    The cut may fall inside a character: the 51-byte title above loses the
    second byte of its last character. *)
Theorem title_is_cut_in_bytes_and_at_most_55 :
  forall (C : Type) (t : DisplayResolved.topic C) (repoName : string)
         (i : storage.Issue) (acc : list DisplayResolved.IssueSummary) (w : World C),
  exists s w',
    DisplayResolved.visit t repoName i acc w = (((acc ++ [s])%list, None), w') /\
    DisplayResolved.Title s =
      (if Nat.leb (String.length (storage.Title i)) 50
       then storage.Title i
       else substring 0 50 (storage.Title i) ++ ". . .") /\
    (if Nat.leb (String.length (storage.Title i)) 50
     then String.length (DisplayResolved.Title s) = String.length (storage.Title i)
     else String.length (substring 0 50 (storage.Title i)) = 50 /\
          String.length (DisplayResolved.Title s) = 55) /\
    String.length ". . ." = 5 /\
    String.length (DisplayResolved.Title s) <= 55 /\
    (storage.Title i = Demo.a49 ++ Demo.eAcute ->
     get 49 (DisplayResolved.Title s) = Some (ascii_of_nat 195) /\
     get 50 (storage.Title i) = Some (ascii_of_nat 169) /\
     isContinuation (ascii_of_nat 169) = true /\
     get 50 (DisplayResolved.Title s) = Some "."%char).
Proof.
  intros C t repoName i acc w.
  destruct (visit_title t repoName i acc w) as (s & w' & Hv & Ht).
  exists s, w'. split; [exact Hv|]. split; [exact Ht|].
  assert (Hlen : if Nat.leb (String.length (storage.Title i)) 50
                 then String.length (DisplayResolved.Title s)
                      = String.length (storage.Title i)
                 else String.length (substring 0 50 (storage.Title i)) = 50 /\
                      String.length (DisplayResolved.Title s) = 55).
  { rewrite Ht. destruct (Nat.leb_spec (String.length (storage.Title i)) 50) as [H|H].
    - reflexivity.
    - rewrite length_append, length_prefix by lia. split; reflexivity. }
  split; [exact Hlen|]. split; [reflexivity|]. split.
  - destruct (Nat.leb_spec (String.length (storage.Title i)) 50) as [H|H].
    + rewrite Hlen. lia.
    + destruct Hlen as [_ ->]. lia.
  - intro HT. rewrite Ht, HT. vm_compute. repeat split; reflexivity.
Qed.

Lemma title_truncated_at_50_bytes_witness :
  let d := Demo.resolved (Demo.scanOf [] None) in
  map DisplayResolved.Title
      (fst (fst (DisplayResolved.visit d "istio"
                   (Demo.issue 1 (Demo.a49 ++ "b") "u1" []) [] Demo.start)))
    = [Demo.a49 ++ "b"] /\
  map DisplayResolved.Title
      (fst (fst (DisplayResolved.visit d "istio"
                   (Demo.issue 2 (Demo.a49 ++ "bc") "u1" []) [] Demo.start)))
    = [Demo.a49 ++ "b. . ."].
Proof.
  intro d. split.
  - destruct (title_truncated_at_50_bytes unit d "istio"
                (Demo.issue 1 (Demo.a49 ++ "b") "u1" []) [] Demo.start)
      as (s & w' & Hv & _ & _ & H50 & _).
    rewrite Hv. simpl. rewrite (H50 eq_refl eq_refl). reflexivity.
  - destruct (title_truncated_at_50_bytes unit d "istio"
                (Demo.issue 2 (Demo.a49 ++ "bc") "u1" []) [] Demo.start)
      as (s & w' & Hv & _ & _ & _ & Hlong).
    rewrite Hv. simpl.
    destruct (Hlong eq_refl (Nat.lt_succ_diag_r 50)) as [-> _]. reflexivity.
Defined.

Lemma title_is_cut_in_bytes_and_at_most_55_witness :
  map DisplayResolved.Title
      (fst (fst (DisplayResolved.visit
                   (Demo.resolved (Demo.scanOf [] None)) "istio"
                   (Demo.issue 3 (Demo.a49 ++ Demo.eAcute) "u1" []) [] Demo.start)))
    = [Demo.a49 ++ String (ascii_of_nat 195) ". . ."].
Proof.
  destruct (title_is_cut_in_bytes_and_at_most_55 unit
              (Demo.resolved (Demo.scanOf [] None)) "istio"
              (Demo.issue 3 (Demo.a49 ++ Demo.eAcute) "u1" []) [] Demo.start)
    as (s & w' & Hv & Ht & _).
  rewrite Hv. simpl. rewrite Ht. reflexivity.
Defined.

(** ** Assignees *)

(** The spec's own example: [u1] is [alice], [u2] is [bob]. *)
Example assignees_alice_bob :
  map DisplayResolved.Assignees
      (fst (fst (DisplayResolved.visit
                   (Demo.resolved (Demo.scanOf [] None)) "istio"
                   (Demo.issue 1 "t" "u1" ["u1"; "u2"]) [] Demo.start)))
    = ["alice" ++ commaNewline ++ "bob"].
Proof. reflexivity. Qed.

(** The assignee string of a summary: the resolved logins, leading empty ones
    dropped, joined by a comma and a newline. *)
Lemma visit_assignees {C : Type} (t : DisplayResolved.topic C) (repoName : string)
      (i : storage.Issue) (acc : list DisplayResolved.IssueSummary) (w : World C) :
  exists s w',
    DisplayResolved.visit t repoName i acc w = (((acc ++ [s])%list, None), w') /\
    DisplayResolved.Assignees s =
      join commaNewline (dropEmpty (fst (resolveAll t (storage.AssigneeIDs i) w))).
Proof.
  rewrite visit_run. eexists. eexists. split; [reflexivity|]. simpl.
  rewrite assigneesLoop_run. simpl. apply fold_glue_dropEmpty.
Qed.

(** Where no assignee resolves to an empty login, the assignee string of a
    summary is the resolved logins, in the order of [AssigneeIDs], joined by a
    comma and a newline; it is empty when the issue has no assignee.  (A
    lookup that does not resolve gives ["unknown"], which is not empty.) *)
Theorem assignees_joined_when_no_login_is_empty :
  forall (C : Type) (t : DisplayResolved.topic C) (repoName : string)
         (i : storage.Issue) (acc : list DisplayResolved.IssueSummary) (w : World C),
    Forall (fun login => login <> "") (fst (resolveAll t (storage.AssigneeIDs i) w)) ->
    exists s w',
      DisplayResolved.visit t repoName i acc w = (((acc ++ [s])%list, None), w') /\
      DisplayResolved.Assignees s =
        join commaNewline (fst (resolveAll t (storage.AssigneeIDs i) w)) /\
      length (fst (resolveAll t (storage.AssigneeIDs i) w))
        = length (storage.AssigneeIDs i) /\
      (storage.AssigneeIDs i = [] -> DisplayResolved.Assignees s = "").
Proof.
  intros C t repoName i acc w Hne.
  destruct (visit_assignees t repoName i acc w) as (s & w' & Hv & Ha).
  exists s, w'. split; [exact Hv|].
  rewrite (dropEmpty_nonempty _ Hne) in Ha.
  split; [exact Ha|]. split; [apply resolveAll_length|].
  intro Hnil. rewrite Ha, Hnil. reflexivity.
Qed.

Lemma assignees_joined_when_no_login_is_empty_witness :
  map DisplayResolved.Assignees
      (fst (fst (DisplayResolved.visit
                   (Demo.resolved (Demo.scanOf [] None)) "istio"
                   (Demo.issue 1 "t" "u1" ["u1"; "u2"; "u9"]) [] Demo.start)))
    = ["alice" ++ commaNewline ++ "bob" ++ commaNewline ++ "unknown"].
Proof.
  assert (Hne : Forall (fun login => login <> "")
                       (fst (resolveAll (Demo.resolved (Demo.scanOf [] None))
                               ["u1"; "u2"; "u9"] Demo.start))).
  { simpl. repeat constructor; discriminate. }
  destruct (assignees_joined_when_no_login_is_empty unit
              (Demo.resolved (Demo.scanOf [] None)) "istio"
              (Demo.issue 1 "t" "u1" ["u1"; "u2"; "u9"]) [] Demo.start Hne)
    as (s & w' & Hv & Ha & _).
  rewrite Hv. simpl. rewrite Ha. reflexivity.
Defined.

(** C4 at an input where it fails: the first assignee [u0] resolves to a user
    whose login is empty and the second, [u2], to [bob].  The logins joined by
    a comma and a newline are [",\nbob"]; the code answers ["bob"], because it
    takes the empty string built so far for "no assignee yet". *)
Theorem assignees_after_empty_login_lose_separator :
  let d := Demo.resolved (Demo.scanOf [] None) in
  fst (DisplayResolved.getUser d "u0" Demo.start) = "" /\
  fst (DisplayResolved.getUser d "u2" Demo.start) = "bob" /\
  fst (resolveAll d ["u0"; "u2"] Demo.start) = [""; "bob"] /\
  map DisplayResolved.Assignees
      (fst (fst (DisplayResolved.visit d "istio"
                   (Demo.issue 3 "t" "u1" ["u0"; "u2"]) [] Demo.start)))
    = ["bob"] /\
  join commaNewline [""; "bob"] = commaNewline ++ "bob" /\
  "bob" <> join commaNewline [""; "bob"].
Proof.
  intro d. repeat split; try reflexivity. discriminate.
Qed.

(** ** Users that do not resolve *)

Lemma loginOr_unresolved (r : result storage.User) :
  Unresolved r -> loginOr r = "unknown".
Proof.
  destruct r as [[u|] [e|]]; intros [H|H]; simpl in *;
    try reflexivity; try discriminate; congruence.
Qed.

(** A successful scan yields the summaries of its visits. *)
Lemma getIssues_visits {C : Type} (d : DisplayResolved.topic C)
      (orgLogin : string) (w : World C) org repo w2 :
  Resolved (DisplayResolved.cache d) orgLogin "istio" w org repo w2 ->
  let scan := storage.QueryOpenIssuesByRepo (DisplayResolved.store d)
                (storage.OrgID org) (storage.RepoID repo) in
  storage.failure scan = None ->
  exists ss w',
    DisplayResolved.getIssues d orgLogin w = ((ss, None), w') /\
    Visits (DisplayResolved.visit d "istio") (storage.emitted scan) w2 ss w'.
Proof.
  intros (w1 & H1 & H2) scan Hok.
  destruct (Visits_total d "istio" (storage.emitted scan) w2) as (ss & w' & Hv).
  exists ss, w'. split; [|exact Hv].
  rewrite (getIssues_found d _ _ _ _ H1).
  rewrite (getIssuesForRepo_found d _ _ _ _ _ H2 _ _ Hv).
  fold scan. rewrite Hok. reflexivity.
Qed.

(** C5: [getUser] always returns a name: the login of the user when the cache
    finds one without error, and ["unknown"] when the lookup errs or finds
    nobody.  So where organization and repository resolve and the scan
    succeeds, [getIssues] succeeds whatever the user lookups answer, and each
    summary's author login is what the cache answered to the lookup of that
    issue's author, in the cache state that lookup was made in (the state the
    issue's visit started in, followed by the lookups of the issue's
    assignees): ["unknown"] if that lookup did not resolve, the user's login
    if it did. *)
Theorem getUser_is_total_and_unknown_authors_do_not_fail :
  forall (C : Type) (d : DisplayResolved.topic C),
    (forall (userID : string) (w : World C),
        exists name w',
          DisplayResolved.getUser d userID w = (name, w') /\
          (forall u,
              fst (cache.ReadUser (DisplayResolved.cache d) userID (cacheState w))
                = (Some u, None) ->
              name = storage.Login u) /\
          (Unresolved
             (fst (cache.ReadUser (DisplayResolved.cache d) userID (cacheState w))) ->
           name = "unknown")) /\
    (forall (orgLogin : string) (w : World C) org repo w2,
        Resolved (DisplayResolved.cache d) orgLogin "istio" w org repo w2 ->
        let scan := storage.QueryOpenIssuesByRepo (DisplayResolved.store d)
                      (storage.OrgID org) (storage.RepoID repo) in
        storage.failure scan = None ->
        exists ss w',
          DisplayResolved.getIssues d orgLogin w = ((ss, None), w') /\
          VisitsSuch
            (DisplayResolved.visit d "istio")
            (fun i w0 s =>
               let asked :=
                 fold_left (perform (DisplayResolved.cache d))
                           (map CallReadUser (storage.AssigneeIDs i)) (cacheState w0) in
               let answer := fst (cache.ReadUser (DisplayResolved.cache d)
                                    (storage.AuthorID i) asked) in
               (Unresolved answer -> DisplayResolved.AuthorLogin s = "unknown") /\
               (forall u, answer = (Some u, None) ->
                          DisplayResolved.AuthorLogin s = storage.Login u))
            (storage.emitted scan) w2 ss w').
Proof.
  intros C d. split.
  - intros userID w. eexists. eexists. split; [apply getUser_run|]. split.
    + intros u Hu. rewrite Hu. reflexivity.
    + apply loginOr_unresolved.
  - intros orgLogin w org repo w2 HR scan Hok.
    destruct (getIssues_visits d orgLogin w org repo w2 HR Hok) as (ss & w' & Hg & Hv).
    exists ss, w'. split; [exact Hg|].
    apply Visits_such; [|exact Hv].
    intros i w0 s w1 Hs.
    destruct (visit_fields d "istio" i w0 s w1 Hs) as (_ & _ & _ & _ & _ & Ha).
    rewrite getUser_run in Ha. simpl in Ha.
    destruct (assigneesLoop_Issued d (storage.AssigneeIDs i) "" w0) as (_ & Hstate).
    rewrite Hstate in Ha. cbv zeta. rewrite Ha. split.
    + apply loginOr_unresolved.
    + intros u Hu. rewrite Hu. reflexivity.
Qed.

Lemma getUser_is_total_and_unknown_authors_do_not_fail_witness :
  let d := Demo.resolved (Demo.scanOf Demo.threeIssues None) in
  let f := Demo.flaky (Demo.scanOf [Demo.issue 1 "t" "u1" ["u1"]] None) in
  fst (DisplayResolved.getUser d "u1" Demo.start) = "alice" /\
  fst (DisplayResolved.getUser d "u9" Demo.start) = "unknown" /\
  (exists s1 s2 s3,
      fst (DisplayResolved.getIssues d "istio" Demo.start) = ([s1; s2; s3], None) /\
      DisplayResolved.AuthorLogin s2 = "unknown" /\
      DisplayResolved.AuthorLogin s3 = "unknown") /\
  (exists s,
      fst (DisplayResolved.getIssues f "istio" Demo.flakyStart) = ([s], None) /\
      DisplayResolved.AuthorLogin s = "unknown" /\
      DisplayResolved.Assignees s = "alice").
Proof.
  intros d f.
  destruct (getUser_is_total_and_unknown_authors_do_not_fail unit d) as (Hu & Hr).
  destruct (getUser_is_total_and_unknown_authors_do_not_fail nat f) as (_ & Hf).
  split; [|split; [|split]].
  - destruct (Hu "u1" Demo.start) as (name & w' & -> & Hfound & _).
    exact (Hfound (Demo.user "u1" "alice") eq_refl).
  - destruct (Hu "u9" Demo.start) as (name & w' & -> & _ & Hun).
    apply Hun. right. discriminate.
  - assert (HR : Resolved (DisplayResolved.cache d) "istio" "istio" Demo.start
                          Demo.istioOrg Demo.istioRepo
                          {| cacheState := tt;
                             calls := [CallReadOrgByLogin "istio";
                                       CallReadRepoByName "o1" "istio"] |}).
    { eexists. split; reflexivity. }
    destruct (Hr "istio" Demo.start _ _ _ HR eq_refl) as (ss & w' & Hg & Hall).
    simpl in Hall.
    inversion Hall as [|i1 l1 w1 s1 w1' ss1 w1'' _ _ Hall1]; subst.
    inversion Hall1 as [|i2 l2 w2 s2 w2' ss2 w2'' _ H2 Hall2]; subst.
    inversion Hall2 as [|i3 l3 w3 s3 w3' ss3 w3'' _ H3 Hall3]; subst.
    inversion Hall3; subst.
    exists s1, s2, s3. rewrite Hg. split; [reflexivity|]. split.
    + destruct H2 as (Hun & _). apply Hun. left. reflexivity.
    + destruct H3 as (Hun & _). apply Hun. right. discriminate.
  - assert (HR : Resolved (DisplayResolved.cache f) "istio" "istio" Demo.flakyStart
                          Demo.istioOrg Demo.istioRepo
                          {| cacheState := 0;
                             calls := [CallReadOrgByLogin "istio";
                                       CallReadRepoByName "o1" "istio"] |}).
    { eexists. split; reflexivity. }
    destruct (Hf "istio" Demo.flakyStart _ _ _ HR eq_refl) as (ss & w' & Hg & Hall).
    simpl in Hall.
    inversion Hall as [|i1 l1 w1 s1 w1' ss1 w1'' Hv1 H1 Hall1]; subst.
    inversion Hall1; subst.
    exists s1. rewrite Hg. split; [reflexivity|]. split.
    + destruct H1 as (Hun & _). apply Hun. right. discriminate.
    + specialize (Hv1 []). vm_compute in Hv1. injection Hv1 as Hs _.
      rewrite <- Hs. reflexivity.
Defined.

(** ** Successful calls *)

Lemma readOrgByLogin_calls {C : Type} (c : cache.Cache C) (login : string) (w : World C) :
  calls (snd (readOrgByLogin c login w)) = (calls w ++ [CallReadOrgByLogin login])%list.
Proof. unfold readOrgByLogin. rewrite issue_run. reflexivity. Qed.

Lemma readRepoByName_calls {C : Type} (c : cache.Cache C) (orgID repoName : string)
      (w : World C) :
  calls (snd (readRepoByName c orgID repoName w))
    = (calls w ++ [CallReadRepoByName orgID repoName])%list.
Proof. unfold readRepoByName. rewrite issue_run. reflexivity. Qed.

(** [getIssuesForRepo] succeeds only by finding the repository and scanning
    it to the end. *)
Lemma getIssuesForRepo_success {C : Type} (d : DisplayResolved.topic C)
      (orgID repoName : string) (w : World C) ss w' :
  DisplayResolved.getIssuesForRepo d orgID repoName w = ((ss, None), w') ->
  exists repo w1,
    readRepoByName (DisplayResolved.cache d) orgID repoName w = ((Some repo, None), w1) /\
    storage.failure
      (storage.QueryOpenIssuesByRepo (DisplayResolved.store d) orgID
         (storage.RepoID repo)) = None /\
    Visits (DisplayResolved.visit d repoName)
           (storage.emitted
              (storage.QueryOpenIssuesByRepo (DisplayResolved.store d) orgID
                 (storage.RepoID repo)))
           w1 ss w'.
Proof.
  intro H.
  destruct (readRepoByName (DisplayResolved.cache d) orgID repoName w)
    as [[[repo|] [e|]] w1] eqn:Hrepo.
  - rewrite (getIssuesForRepo_error d _ _ _ _ _ _ Hrepo) in H. discriminate.
  - destruct (Visits_total d repoName
                (storage.emitted
                   (storage.QueryOpenIssuesByRepo (DisplayResolved.store d) orgID
                      (storage.RepoID repo))) w1) as (ss0 & w2 & Hv).
    rewrite (getIssuesForRepo_found d _ _ _ _ _ Hrepo _ _ Hv) in H.
    exists repo, w1. split; [reflexivity|].
    destruct (storage.failure _) as [e|]; [discriminate|].
    injection H as <- <-. split; [reflexivity | exact Hv].
  - rewrite (getIssuesForRepo_error d _ _ _ _ _ _ Hrepo) in H. discriminate.
  - rewrite (getIssuesForRepo_missing d _ _ _ _ Hrepo) in H. discriminate.
Qed.

Lemma getIssues_success {C : Type} (d : DisplayResolved.topic C)
      (orgLogin : string) (w : World C) ss w' :
  DisplayResolved.getIssues d orgLogin w = ((ss, None), w') ->
  exists org repo w2,
    Resolved (DisplayResolved.cache d) orgLogin "istio" w org repo w2 /\
    storage.failure
      (storage.QueryOpenIssuesByRepo (DisplayResolved.store d) (storage.OrgID org)
         (storage.RepoID repo)) = None /\
    Visits (DisplayResolved.visit d "istio")
           (storage.emitted
              (storage.QueryOpenIssuesByRepo (DisplayResolved.store d)
                 (storage.OrgID org) (storage.RepoID repo)))
           w2 ss w'.
Proof.
  intro H.
  destruct (readOrgByLogin (DisplayResolved.cache d) orgLogin w)
    as [[[org|] [e|]] w1] eqn:Horg.
  - rewrite (getIssues_error d _ _ _ _ _ Horg) in H. discriminate.
  - rewrite (getIssues_found d _ _ _ _ Horg) in H.
    destruct (getIssuesForRepo_success d _ _ _ _ _ H) as (repo & w2 & Hrepo & Hok & Hv).
    exists org, repo, w2. split; [|split; assumption].
    exists w1. split; [exact Horg | exact Hrepo].
  - rewrite (getIssues_error d _ _ _ _ _ Horg) in H. discriminate.
  - rewrite (getIssues_missing d _ _ _ Horg) in H. discriminate.
Qed.

(** Every way through the pass-through [getIssues]. *)
Lemma raw_getIssues_cases {C : Type} (p : PassThrough.topic C)
      (orgLogin : string) (w : World C) :
  (exists e w1,
      PassThrough.getIssues p orgLogin w = (([], Some e), w1) /\
      calls w1 = (calls w ++ [CallReadOrgByLogin orgLogin])%list) \/
  (exists org e w2,
      PassThrough.getIssues p orgLogin w = (([], Some e), w2) /\
      calls w2 = (calls w ++ [CallReadOrgByLogin orgLogin;
                              CallReadRepoByName (storage.OrgID org) "istio"])%list) \/
  (exists org repo w2,
      Resolved (PassThrough.cache p) orgLogin "istio" w org repo w2 /\
      storage.failure
        (storage.QueryIssuesByRepo (PassThrough.store p) (storage.OrgID org)
           (storage.RepoID repo)) = None /\
      PassThrough.getIssues p orgLogin w =
        ((map (carried "istio")
              (storage.emitted
                 (storage.QueryIssuesByRepo (PassThrough.store p) (storage.OrgID org)
                    (storage.RepoID repo))), None), w2) /\
      calls w2 = (calls w ++ [CallReadOrgByLogin orgLogin;
                              CallReadRepoByName (storage.OrgID org) "istio"])%list).
Proof.
  pose proof (readOrgByLogin_calls (PassThrough.cache p) orgLogin w) as Hc1.
  destruct (readOrgByLogin (PassThrough.cache p) orgLogin w)
    as [[[org|] [e|]] w1] eqn:Horg; simpl in Hc1.
  - left. eexists. exists w1. split; [|exact Hc1].
    apply (raw_getIssues_error p _ _ _ _ _ Horg).
  - right.
    pose proof (readRepoByName_calls (PassThrough.cache p) (storage.OrgID org) "istio" w1)
      as Hc2.
    rewrite Hc1, <- app_assoc in Hc2. simpl in Hc2.
    destruct (readRepoByName (PassThrough.cache p) (storage.OrgID org) "istio" w1)
      as [[[repo|] [e|]] w2] eqn:Hrepo; simpl in Hc2.
    + left. exists org. eexists. exists w2. split; [|exact Hc2].
      apply (raw_getIssues_repo_error p _ _ _ _ _ _ _ Horg Hrepo).
    + assert (HR : Resolved (PassThrough.cache p) orgLogin "istio" w org repo w2)
        by (exists w1; split; assumption).
      pose proof (raw_getIssues_found p _ _ _ _ _ HR) as Hg.
      destruct (storage.failure _) as [e|] eqn:Hf.
      * left. exists org, e, w2. split; assumption.
      * right. exists org, repo, w2. repeat split; assumption.
    + left. exists org. eexists. exists w2. split; [|exact Hc2].
      apply (raw_getIssues_repo_error p _ _ _ _ _ _ _ Horg Hrepo).
    + left. exists org. eexists. exists w2. split; [|exact Hc2].
      apply (raw_getIssues_repo_missing p _ _ _ _ _ Horg Hrepo).
  - left. eexists. exists w1. split; [|exact Hc1].
    apply (raw_getIssues_error p _ _ _ _ _ Horg).
  - left. eexists. exists w1. split; [|exact Hc1].
    apply (raw_getIssues_missing p _ _ _ Horg).
Qed.

Lemma Forall2_map_eq {A B X : Type} (f : A -> X) (g : B -> X) (l : list A) (l' : list B) :
  Forall2 (fun a b => g b = f a) l l' -> map g l' = map f l.
Proof. induction 1; simpl; congruence. Qed.

Lemma Forall2_map_self {A B : Type} (f : A -> B) (P : A -> B -> Prop) (l : list A) :
  (forall a, P a (f a)) -> Forall2 P l (map f l).
Proof. intro H. induction l; simpl; constructor; auto. Qed.

(** What every display-resolved summary copies from its issue. *)
Lemma Visits_copied {C : Type} (d : DisplayResolved.topic C) (repoName : string)
      l (w : World C) ss w' :
  Visits (DisplayResolved.visit d repoName) l w ss w' ->
  Forall2 (fun i s =>
             DisplayResolved.Repo s = repoName /\
             DisplayResolved.Number s = storage.Number i /\
             DisplayResolved.State s = storage.State i) l ss.
Proof.
  apply Visits_Forall2. intros i w0 s w1 Hs.
  destruct (visit_fields d repoName i w0 s w1 Hs) as (H1 & H2 & H3 & _).
  repeat split; assumption.
Qed.

(** C6: where organization and repository resolve and the scan succeeds,
    [getIssues] returns one summary per emitted issue, the k-th summary being
    the one built on visiting the k-th issue (so in the store's order: the
    issue numbers come out in the order they went in), and nil with no error
    when the scan emits nothing.  The display-resolved variant scans the open
    issues, the pass-through variant all of them. *)
Theorem one_summary_per_emitted_issue_in_store_order :
  forall (C : Type) (c : cache.Cache C)
         (d : DisplayResolved.topic C) (p : PassThrough.topic C),
    DisplayResolved.cache d = c ->
    PassThrough.cache p = c ->
    forall (orgLogin : string) (w : World C) org repo w2,
      Resolved c orgLogin "istio" w org repo w2 ->
      (let scan := storage.QueryOpenIssuesByRepo (DisplayResolved.store d)
                     (storage.OrgID org) (storage.RepoID repo) in
       storage.failure scan = None ->
       exists ss w',
         DisplayResolved.getIssues d orgLogin w = ((ss, None), w') /\
         length ss = length (storage.emitted scan) /\
         Visits (DisplayResolved.visit d "istio") (storage.emitted scan) w2 ss w' /\
         map DisplayResolved.Number ss = map storage.Number (storage.emitted scan) /\
         (storage.emitted scan = [] -> ss = [])) /\
      (let scan := storage.QueryIssuesByRepo (PassThrough.store p)
                     (storage.OrgID org) (storage.RepoID repo) in
       storage.failure scan = None ->
       exists ss,
         PassThrough.getIssues p orgLogin w = ((ss, None), w2) /\
         length ss = length (storage.emitted scan) /\
         ss = map (carried "istio") (storage.emitted scan) /\
         map PassThrough.Number ss = map storage.Number (storage.emitted scan) /\
         (storage.emitted scan = [] -> ss = [])).
Proof.
  intros C c d p Hd Hp orgLogin w org repo w2 HR. split.
  - intros scan Hok. rewrite <- Hd in HR.
    destruct (getIssues_visits d orgLogin w org repo w2 HR Hok) as (ss & w' & Hg & Hv).
    fold scan in Hv.
    exists ss, w'. split; [exact Hg|]. split; [exact (Visits_length _ _ _ _ _ Hv)|].
    split; [exact Hv|]. split.
    + apply Forall2_map_eq.
      eapply Forall2_impl; [|exact (Visits_copied d "istio" _ _ _ _ Hv)].
      intros i s (_ & H & _). exact H.
    + intro Hnil. apply Visits_length in Hv. rewrite Hnil in Hv.
      destruct ss; [reflexivity | discriminate].
  - intros scan Hok. rewrite <- Hp in HR.
    pose proof (raw_getIssues_found p _ _ _ _ _ HR) as Hg.
    fold scan in Hg. rewrite Hok in Hg.
    eexists. split; [exact Hg|]. split; [apply length_map|].
    split; [reflexivity|]. split.
    + rewrite map_map. reflexivity.
    + intros ->. reflexivity.
Qed.

Lemma one_summary_per_emitted_issue_in_store_order_witness :
  let none := Demo.scanOf [] None in
  let three := Demo.scanOf Demo.threeIssues None in
  fst (DisplayResolved.getIssues (Demo.resolved none) "istio" Demo.start) = ([], None) /\
  fst (PassThrough.getIssues (Demo.raw none) "istio" Demo.start) = ([], None) /\
  map DisplayResolved.Number
      (fst (fst (DisplayResolved.getIssues (Demo.resolved three) "istio" Demo.start)))
    = [1%Z; 2%Z; 3%Z] /\
  map PassThrough.Number
      (fst (fst (PassThrough.getIssues (Demo.raw three) "istio" Demo.start)))
    = [1%Z; 2%Z; 3%Z].
Proof.
  intros none three.
  assert (HR : Resolved Demo.demoCache "istio" "istio" Demo.start Demo.istioOrg
                        Demo.istioRepo
                        {| cacheState := tt;
                           calls := [CallReadOrgByLogin "istio";
                                     CallReadRepoByName "o1" "istio"] |}).
  { eexists. split; reflexivity. }
  destruct (one_summary_per_emitted_issue_in_store_order
              unit Demo.demoCache (Demo.resolved none) (Demo.raw none)
              eq_refl eq_refl "istio" Demo.start _ _ _ HR) as (Hd0 & Hp0).
  destruct (one_summary_per_emitted_issue_in_store_order
              unit Demo.demoCache (Demo.resolved three) (Demo.raw three)
              eq_refl eq_refl "istio" Demo.start _ _ _ HR) as (Hd3 & Hp3).
  split; [|split; [|split]].
  - destruct (Hd0 eq_refl) as (ss & w' & Hg & _ & _ & _ & Hnil).
    rewrite Hg, (Hnil eq_refl). reflexivity.
  - destruct (Hp0 eq_refl) as (ss & Hg & _ & _ & _ & Hnil).
    rewrite Hg, (Hnil eq_refl). reflexivity.
  - destruct (Hd3 eq_refl) as (ss & w' & Hg & _ & _ & Hn & _).
    rewrite Hg. exact Hn.
  - destruct (Hp3 eq_refl) as (ss & Hg & _ & _ & Hn & _).
    rewrite Hg. exact Hn.
Defined.

(** C7: the pass-through closure copies [AuthorID], [AssigneeIDs] and [Title]
    from the issue as they are and leaves the world alone; a call of the
    pass-through [getIssues] issues the organization lookup, at most the
    repository lookup after it, and no user lookup; and every summary of a
    successful call carries its issue's author, assignees and title
    unchanged. *)
Theorem pass_through_copies_identifiers_and_looks_up_no_user :
  forall (C : Type) (p : PassThrough.topic C),
    (forall (repoName : string) (i : storage.Issue)
            (acc : list PassThrough.IssueSummary) (w : World C),
        exists s,
          PassThrough.visit repoName i acc w = (((acc ++ [s])%list, None), w) /\
          PassThrough.AuthorID s = storage.AuthorID i /\
          PassThrough.AssigneeIDs s = storage.AssigneeIDs i /\
          PassThrough.Title s = storage.Title i) /\
    (forall (orgLogin : string) (w : World C),
        let after := calls (snd (PassThrough.getIssues p orgLogin w)) in
        (after = (calls w ++ [CallReadOrgByLogin orgLogin])%list \/
         exists orgID,
           after = (calls w ++ [CallReadOrgByLogin orgLogin;
                                CallReadRepoByName orgID "istio"])%list) /\
        filter isUserCall after = filter isUserCall (calls w)) /\
    (forall (orgLogin : string) (w : World C) ss w',
        PassThrough.getIssues p orgLogin w = ((ss, None), w') ->
        exists org repo,
          Resolved (PassThrough.cache p) orgLogin "istio" w org repo w' /\
          Forall2 (fun i s =>
                     PassThrough.AuthorID s = storage.AuthorID i /\
                     PassThrough.AssigneeIDs s = storage.AssigneeIDs i /\
                     PassThrough.Title s = storage.Title i)
                  (storage.emitted
                     (storage.QueryIssuesByRepo (PassThrough.store p)
                        (storage.OrgID org) (storage.RepoID repo)))
                  ss).
Proof.
  intros C p. split; [|split].
  - intros repoName i acc w. eexists. split; [reflexivity|].
    repeat split; reflexivity.
  - intros orgLogin w after. subst after.
    destruct (raw_getIssues_cases p orgLogin w)
      as [(e & w1 & Hg & Hc) | [(org & e & w2 & Hg & Hc) | (org & repo & w2 & _ & _ & Hg & Hc)]];
      rewrite Hg; simpl; rewrite Hc.
    + split; [left; reflexivity|].
      rewrite filter_app. simpl. apply app_nil_r.
    + split; [right; exists (storage.OrgID org); reflexivity|].
      rewrite filter_app. simpl. apply app_nil_r.
    + split; [right; exists (storage.OrgID org); reflexivity|].
      rewrite filter_app. simpl. apply app_nil_r.
  - intros orgLogin w ss w' H.
    destruct (raw_getIssues_cases p orgLogin w)
      as [(e & w1 & Hg & _) | [(org & e & w2 & Hg & _) | (org & repo & w2 & HR & _ & Hg & _)]];
      rewrite Hg in H; try discriminate.
    injection H as <- <-. exists org, repo. split; [exact HR|].
    apply Forall2_map_self. intro i. repeat split; reflexivity.
Qed.

Lemma pass_through_copies_identifiers_and_looks_up_no_user_witness :
  let p := Demo.raw (Demo.scanOf Demo.threeIssues None) in
  calls (snd (PassThrough.getIssues p "istio" Demo.start))
    = [CallReadOrgByLogin "istio"; CallReadRepoByName "o1" "istio"] /\
  map PassThrough.AssigneeIDs (fst (fst (PassThrough.getIssues p "istio" Demo.start)))
    = map storage.AssigneeIDs Demo.threeIssues.
Proof.
  intro p.
  destruct (pass_through_copies_identifiers_and_looks_up_no_user unit p)
    as (_ & Hcalls & Hok).
  split.
  - destruct (Hcalls "istio" Demo.start) as ([H | (orgID & H)] & _).
    + apply (f_equal (@length CacheCall)) in H. discriminate.
    + reflexivity.
  - destruct (Hok "istio" Demo.start _ _ eq_refl) as (org & repo & _ & Hall).
    apply Forall2_map_eq.
    eapply Forall2_impl; [|exact Hall].
    intros i s (_ & H & _). exact H.
Defined.

(** C8: in every successful call, under both policies, every summary's
    [Repo] is the one name the repository was resolved by in that call, and
    [Number] and [State] are those of the summary's issue.  For
    [getIssuesForRepo] the name is its argument; [getIssues] passes
    ["istio"]. *)
Theorem summaries_carry_the_resolved_repo_name_number_and_state :
  forall (C : Type) (d : DisplayResolved.topic C) (p : PassThrough.topic C),
    (forall (orgID repoName : string) (w : World C) ss w',
        DisplayResolved.getIssuesForRepo d orgID repoName w = ((ss, None), w') ->
        exists repo w1,
          readRepoByName (DisplayResolved.cache d) orgID repoName w
            = ((Some repo, None), w1) /\
          Forall2 (fun i s =>
                     DisplayResolved.Repo s = repoName /\
                     DisplayResolved.Number s = storage.Number i /\
                     DisplayResolved.State s = storage.State i)
                  (storage.emitted
                     (storage.QueryOpenIssuesByRepo (DisplayResolved.store d) orgID
                        (storage.RepoID repo)))
                  ss) /\
    (forall (orgLogin : string) (w : World C) ss w',
        DisplayResolved.getIssues d orgLogin w = ((ss, None), w') ->
        exists org repo w2,
          Resolved (DisplayResolved.cache d) orgLogin "istio" w org repo w2 /\
          Forall2 (fun i s =>
                     DisplayResolved.Repo s = "istio" /\
                     DisplayResolved.Number s = storage.Number i /\
                     DisplayResolved.State s = storage.State i)
                  (storage.emitted
                     (storage.QueryOpenIssuesByRepo (DisplayResolved.store d)
                        (storage.OrgID org) (storage.RepoID repo)))
                  ss) /\
    (forall (orgLogin : string) (w : World C) ss w',
        PassThrough.getIssues p orgLogin w = ((ss, None), w') ->
        exists org repo,
          Resolved (PassThrough.cache p) orgLogin "istio" w org repo w' /\
          Forall2 (fun i s =>
                     PassThrough.Repo s = "istio" /\
                     PassThrough.Number s = storage.Number i /\
                     PassThrough.State s = storage.State i)
                  (storage.emitted
                     (storage.QueryIssuesByRepo (PassThrough.store p)
                        (storage.OrgID org) (storage.RepoID repo)))
                  ss).
Proof.
  intros C d p. split; [|split].
  - intros orgID repoName w ss w' H.
    destruct (getIssuesForRepo_success d _ _ _ _ _ H) as (repo & w1 & Hrepo & _ & Hv).
    exists repo, w1. split; [exact Hrepo|].
    exact (Visits_copied d repoName _ _ _ _ Hv).
  - intros orgLogin w ss w' H.
    destruct (getIssues_success d _ _ _ _ H) as (org & repo & w2 & HR & _ & Hv).
    exists org, repo, w2. split; [exact HR|].
    exact (Visits_copied d "istio" _ _ _ _ Hv).
  - intros orgLogin w ss w' H.
    destruct (raw_getIssues_cases p orgLogin w)
      as [(e & w1 & Hg & _) | [(org & e & w2 & Hg & _) | (org & repo & w2 & HR & _ & Hg & _)]];
      rewrite Hg in H; try discriminate.
    injection H as <- <-. exists org, repo. split; [exact HR|].
    apply Forall2_map_self. intro i. repeat split; reflexivity.
Qed.

Lemma summaries_carry_the_resolved_repo_name_number_and_state_witness :
  let d := Demo.resolved (Demo.scanOf Demo.threeIssues None) in
  let p := Demo.raw (Demo.scanOf Demo.threeIssues None) in
  map DisplayResolved.Repo (fst (fst (DisplayResolved.getIssues d "istio" Demo.start)))
    = ["istio"; "istio"; "istio"] /\
  map PassThrough.Repo (fst (fst (PassThrough.getIssues p "istio" Demo.start)))
    = ["istio"; "istio"; "istio"] /\
  map DisplayResolved.Repo
      (fst (fst (DisplayResolved.getIssuesForRepo d "o1" "bots" Demo.start)))
    = ["bots"; "bots"; "bots"].
Proof.
  intros d p.
  destruct (summaries_carry_the_resolved_repo_name_number_and_state unit d p)
    as (Hrepo & Hd & Hp).
  split; [|split].
  - destruct (Hd "istio" Demo.start _ _ eq_refl) as (org & repo & w2 & _ & Hall).
    change ["istio"; "istio"; "istio"] with (map (fun _ : storage.Issue => "istio")
                                                 Demo.threeIssues).
    apply Forall2_map_eq. eapply Forall2_impl; [|exact Hall].
    intros i s (H & _). exact H.
  - destruct (Hp "istio" Demo.start _ _ eq_refl) as (org & repo & _ & Hall).
    change ["istio"; "istio"; "istio"] with (map (fun _ : storage.Issue => "istio")
                                                 Demo.threeIssues).
    apply Forall2_map_eq. eapply Forall2_impl; [|exact Hall].
    intros i s (H & _). exact H.
  - destruct (Hrepo "o1" "bots" Demo.start _ _ eq_refl) as (repo & w1 & _ & Hall).
    change ["bots"; "bots"; "bots"] with (map (fun _ : storage.Issue => "bots")
                                              Demo.threeIssues).
    apply Forall2_map_eq. eapply Forall2_impl; [|exact Hall].
    intros i s (H & _). exact H.
Defined.

(** ** The handlers *)

(** C9: when [getIssues] fails, the HTML handler reports the error and goes
    on: it executes the page template, on the nil slice the failed call
    returned, and renders what the template wrote (or reports the template's
    error).  The JSON handler, by contrast, returns once it has reported the
    error. *)
Theorem html_handler_renders_after_reporting_the_error :
  forall (C : Type) (t : DisplayResolved.topic C) (query : string) (w : World C)
         issues e w',
    DisplayResolved.getIssues t
      (if string_dec query "" then DefaultOrg (DisplayResolved.options t) else query) w
      = ((issues, Some e), w') ->
    issues = [] /\
    DisplayResolved.handleListIssuesHTML t query w =
      ([RenderHTMLError e;
        PageExecute [];
        match DisplayResolved.page t [] with
        | (_, Some e') => RenderHTMLError e'
        | (sb, None) => RenderHTML sb
        end], w') /\
    (forall issues' e' w'',
        DisplayResolved.getIssues t (if string_dec query "" then "istio" else query) w
          = ((issues', Some e'), w'') ->
        DisplayResolved.handleListIssuesJSON t query w = ([RenderHTMLError e'], w'')).
Proof.
  intros C t query w issues e w' H.
  pose proof (getIssues_failure_nil t _ _ _ _ _ H) as ->.
  split; [reflexivity|]. split.
  - unfold DisplayResolved.handleListIssuesHTML. rewrite bind_run, H. simpl.
    destruct (DisplayResolved.page t []) as [sb [e'|]]; reflexivity.
  - intros issues' e' w'' H'.
    unfold DisplayResolved.handleListIssuesJSON. rewrite bind_run, H'. reflexivity.
Qed.

Lemma html_handler_renders_after_reporting_the_error_witness :
  let t := Demo.resolved (Demo.scanOf Demo.threeIssues None) in
  fst (DisplayResolved.handleListIssuesHTML t "nobody" Demo.start) =
    [RenderHTMLError (HTTPError 404 "no information available on organization nobody");
     PageExecute [];
     RenderHTML "<page>"] /\
  fst (DisplayResolved.handleListIssuesJSON t "nobody" Demo.start) =
    [RenderHTMLError (HTTPError 404 "no information available on organization nobody")].
Proof.
  intro t.
  destruct (html_handler_renders_after_reporting_the_error
              unit t "nobody" Demo.start _ _ _ eq_refl) as (_ & Hhtml & Hjson).
  split.
  - rewrite Hhtml. reflexivity.
  - rewrite (Hjson _ _ _ eq_refl). reflexivity.
Defined.

(** * Further properties of the code *)

(** ** Counting the lookups *)

Lemma filter_isUserCall_userLookups (l : list storage.Issue) :
  filter isUserCall (flat_map userLookups l) = flat_map userLookups l.
Proof.
  induction l as [|i rest IH]; [reflexivity|].
  simpl. rewrite filter_app, IH. f_equal.
  unfold userLookups. rewrite filter_app. simpl. f_equal.
  induction (storage.AssigneeIDs i) as [|a l' IHl]; simpl; congruence.
Qed.

Lemma length_flat_map_userLookups (l : list storage.Issue) :
  length (flat_map userLookups l)
    = list_sum (map (fun i => length (storage.AssigneeIDs i) + 1) l).
Proof.
  induction l as [|i rest IH]; [reflexivity|].
  simpl. rewrite length_app, IH. unfold userLookups.
  rewrite length_app, length_map. reflexivity.
Qed.

(** Where organization and repository resolve, the display-resolved
    [getIssues] issues, after those two lookups, one user lookup per assignee
    and then one for the author, issue after issue in the store's order, with
    no lookup shared between issues or remembered: [length AssigneeIDs + 1]
    per issue.  That is so whether or not the scan then ends in an error, and
    the cache is left in the state these lookups, replayed in order, lead to. *)
Theorem display_resolved_looks_up_each_assignee_then_the_author :
  forall (C : Type) (d : DisplayResolved.topic C) (orgLogin : string) (w : World C)
         org repo w2,
    Resolved (DisplayResolved.cache d) orgLogin "istio" w org repo w2 ->
    let emitted := storage.emitted
                     (storage.QueryOpenIssuesByRepo (DisplayResolved.store d)
                        (storage.OrgID org) (storage.RepoID repo)) in
    let issued := ([CallReadOrgByLogin orgLogin;
                    CallReadRepoByName (storage.OrgID org) "istio"]
                     ++ flat_map userLookups emitted)%list in
    Issued (DisplayResolved.cache d) w issued
           (snd (DisplayResolved.getIssues d orgLogin w)) /\
    filter isUserCall issued = flat_map userLookups emitted /\
    length (filter isUserCall issued)
      = list_sum (map (fun i => length (storage.AssigneeIDs i) + 1) emitted).
Proof.
  intros C d orgLogin w org repo w2 HR emitted issued.
  assert (Hf : filter isUserCall issued = flat_map userLookups emitted).
  { unfold issued. simpl. apply filter_isUserCall_userLookups. }
  split; [|split; [exact Hf|]].
  - destruct (Visits_total d "istio" emitted w2) as (ss & w' & Hv).
    assert (Hw : snd (DisplayResolved.getIssues d orgLogin w) = w').
    { destruct HR as (w1 & H1 & H2).
      rewrite (getIssues_found d _ _ _ _ H1).
      rewrite (getIssuesForRepo_found d _ _ _ _ _ H2 _ _ Hv). reflexivity. }
    rewrite Hw. unfold issued.
    eapply Issued_app; [exact (Resolved_Issued _ _ _ _ _ _ _ HR)|].
    exact (Visits_Issued d "istio" _ _ _ _ Hv).
  - rewrite Hf. apply length_flat_map_userLookups.
Qed.

Lemma display_resolved_looks_up_each_assignee_then_the_author_witness :
  calls (snd (DisplayResolved.getIssues
                (Demo.resolved (Demo.scanOf Demo.threeIssues (Some (PlainError "io"))))
                "istio" Demo.start))
    = [CallReadOrgByLogin "istio"; CallReadRepoByName "o1" "istio";
       CallReadUser "u1"; CallReadUser "u2"; CallReadUser "u1";
       CallReadUser "u7";
       CallReadUser "u0"; CallReadUser "u2"; CallReadUser "u9"].
Proof.
  assert (HR : Resolved Demo.demoCache "istio" "istio" Demo.start Demo.istioOrg
                        Demo.istioRepo
                        {| cacheState := tt;
                           calls := [CallReadOrgByLogin "istio";
                                     CallReadRepoByName "o1" "istio"] |}).
  { eexists. split; reflexivity. }
  destruct (display_resolved_looks_up_each_assignee_then_the_author unit
              (Demo.resolved (Demo.scanOf Demo.threeIssues (Some (PlainError "io"))))
              "istio" Demo.start _ _ _ HR) as ((Hc & _) & _).
  rewrite Hc. reflexivity.
Defined.

(** ** Every way through [getIssues] *)

Lemma getIssues_way {C : Type} (d : DisplayResolved.topic C) (orgLogin : string)
      (w : World C) :
  Way (DisplayResolved.cache d) orgLogin w
      (fun org repo =>
         storage.QueryOpenIssuesByRepo (DisplayResolved.store d)
           (storage.OrgID org) (storage.RepoID repo))
      (DisplayResolved.getIssues d orgLogin w).
Proof.
  destruct (readOrgByLogin (DisplayResolved.cache d) orgLogin w)
    as [[[org|] [e|]] w1] eqn:Horg.
  - eapply OrgFailed; [exact Horg|]. apply (getIssues_error d _ _ _ _ _ Horg).
  - destruct (readRepoByName (DisplayResolved.cache d) (storage.OrgID org) "istio" w1)
      as [[[repo|] [e|]] w2] eqn:Hrepo.
    + eapply RepoFailed; [exact Horg | exact Hrepo |].
      rewrite (getIssues_found d _ _ _ _ Horg).
      apply (getIssuesForRepo_error d _ _ _ _ _ _ Hrepo).
    + assert (HR : Resolved (DisplayResolved.cache d) orgLogin "istio" w org repo w2)
        by (exists w1; split; assumption).
      destruct (Visits_total d "istio"
                  (storage.emitted
                     (storage.QueryOpenIssuesByRepo (DisplayResolved.store d)
                        (storage.OrgID org) (storage.RepoID repo))) w2)
        as (ss & w' & Hv).
      pose proof (getIssuesForRepo_found d _ _ _ _ _ Hrepo _ _ Hv) as Hg.
      rewrite <- (getIssues_found d _ _ _ _ Horg) in Hg.
      destruct (storage.failure _) as [cause|] eqn:Hf.
      * eapply ScanFailed; [exact HR | exact Hf | now rewrite Hg].
      * eapply Scanned; [exact HR | exact Hf | now rewrite Hg |].
        rewrite Hg. simpl. exact (Visits_length _ _ _ _ _ Hv).
    + eapply RepoFailed; [exact Horg | exact Hrepo |].
      rewrite (getIssues_found d _ _ _ _ Horg).
      apply (getIssuesForRepo_error d _ _ _ _ _ _ Hrepo).
    + eapply RepoMissing; [exact Horg | exact Hrepo |].
      rewrite (getIssues_found d _ _ _ _ Horg).
      apply (getIssuesForRepo_missing d _ _ _ _ Hrepo).
  - eapply OrgFailed; [exact Horg|]. apply (getIssues_error d _ _ _ _ _ Horg).
  - eapply OrgMissing; [exact Horg|]. apply (getIssues_missing d _ _ _ Horg).
Qed.

Lemma raw_getIssues_way {C : Type} (p : PassThrough.topic C) (orgLogin : string)
      (w : World C) :
  Way (PassThrough.cache p) orgLogin w
      (fun org repo =>
         storage.QueryIssuesByRepo (PassThrough.store p)
           (storage.OrgID org) (storage.RepoID repo))
      (PassThrough.getIssues p orgLogin w).
Proof.
  destruct (readOrgByLogin (PassThrough.cache p) orgLogin w)
    as [[[org|] [e|]] w1] eqn:Horg.
  - eapply OrgFailed; [exact Horg|]. apply (raw_getIssues_error p _ _ _ _ _ Horg).
  - destruct (readRepoByName (PassThrough.cache p) (storage.OrgID org) "istio" w1)
      as [[[repo|] [e|]] w2] eqn:Hrepo.
    + eapply RepoFailed; [exact Horg | exact Hrepo |].
      apply (raw_getIssues_repo_error p _ _ _ _ _ _ _ Horg Hrepo).
    + assert (HR : Resolved (PassThrough.cache p) orgLogin "istio" w org repo w2)
        by (exists w1; split; assumption).
      pose proof (raw_getIssues_found p _ _ _ _ _ HR) as Hg.
      destruct (storage.failure _) as [cause|] eqn:Hf.
      * eapply ScanFailed; [exact HR | exact Hf | now rewrite Hg].
      * eapply Scanned; [exact HR | exact Hf | now rewrite Hg |].
        rewrite Hg. simpl. apply length_map.
    + eapply RepoFailed; [exact Horg | exact Hrepo |].
      apply (raw_getIssues_repo_error p _ _ _ _ _ _ _ Horg Hrepo).
    + eapply RepoMissing; [exact Horg | exact Hrepo |].
      apply (raw_getIssues_repo_missing p _ _ _ _ _ Horg Hrepo).
  - eapply OrgFailed; [exact Horg|]. apply (raw_getIssues_error p _ _ _ _ _ Horg).
  - eapply OrgMissing; [exact Horg|]. apply (raw_getIssues_missing p _ _ _ Horg).
Qed.

Lemma Resolved_functional {C : Type} (c : cache.Cache C) orgLogin repoName (w : World C)
      org repo w2 org' repo' w2' :
  Resolved c orgLogin repoName w org repo w2 ->
  Resolved c orgLogin repoName w org' repo' w2' ->
  org' = org /\ repo' = repo /\ w2' = w2.
Proof.
  intros (w1 & H1 & H2) (w1' & H1' & H2').
  rewrite H1 in H1'. injection H1' as <- <-.
  rewrite H2 in H2'. injection H2' as <- <-. repeat split.
Qed.

Section Ways.
Context {C S : Type}.
Variable c : cache.Cache C.
Variable orgLogin : string.
Variable w : World C.
Variable scanOf : storage.Org -> storage.Repo -> storage.Scan.
Variable r : (list S * option error) * World C.
Hypothesis way : Way c orgLogin w scanOf r.

Lemma Way_error ss e w' :
  r = ((ss, Some e), w') ->
  ss = [] /\
  ((exists org cause w1,
      readOrgByLogin c orgLogin w = ((org, Some cause), w1) /\
      e = lookupFailed "organization" orgLogin cause) \/
  (exists w1,
      readOrgByLogin c orgLogin w = ((None, None), w1) /\
      e = nothingFound "organization" orgLogin) \/
  (exists org w1 repo cause w2,
      readOrgByLogin c orgLogin w = ((Some org, None), w1) /\
      readRepoByName c (storage.OrgID org) "istio" w1 = ((repo, Some cause), w2) /\
      e = lookupFailed "repository" "istio" cause) \/
  (exists org w1 w2,
      readOrgByLogin c orgLogin w = ((Some org, None), w1) /\
      readRepoByName c (storage.OrgID org) "istio" w1 = ((None, None), w2) /\
      e = nothingFound "repository" "istio") \/
  (exists org repo w2,
      Resolved c orgLogin "istio" w org repo w2 /\
      storage.failure (scanOf org repo) = Some e)).
Proof.
  intro Hr.
  destruct way as [org cause w1 H1 H | w1 H1 H | org w1 repo cause w2 H1 H2 H
                  | org w1 w2 H1 H2 H | org repo w2 cause HR Hf H | org repo w2 HR Hf H _];
    rewrite Hr in H; simpl in H; try discriminate;
    injection H; intros; subst; split; try reflexivity.
  - left. do 3 eexists. split; [exact H1 | reflexivity].
  - right; left. eexists. split; [exact H1 | reflexivity].
  - right; right; left. do 5 eexists.
    split; [exact H1 | split; [exact H2 | reflexivity]].
  - right; right; right; left. do 3 eexists.
    split; [exact H1 | split; [exact H2 | reflexivity]].
  - right; right; right; right. exists org, repo, w2. split; assumption.
Qed.

Lemma Way_success :
  snd (fst r) = None <->
  exists org repo w2,
    Resolved c orgLogin "istio" w org repo w2 /\
    storage.failure (scanOf org repo) = None.
Proof.
  split.
  - intro Hr.
    destruct way as [org cause w1 _ H | w1 _ H | org w1 repo cause w2 _ _ H
                    | org w1 w2 _ _ H | org repo w2 cause HR Hf H | org repo w2 HR Hf H _];
      try (rewrite H in Hr; discriminate).
    exists org, repo, w2. split; assumption.
  - intros (org & repo & w2 & HR & Hf).
    destruct way as [org' cause w1 H1 _ | w1 H1 _ | org' w1 repo' cause w2' H1 H2 _
                    | org' w1 w2' H1 H2 _ | org' repo' w2' cause HR' Hf' _
                    | org' repo' w2' HR' Hf' H _].
    + destruct HR as (w1' & H1' & _). rewrite H1 in H1'. discriminate.
    + destruct HR as (w1' & H1' & _). rewrite H1 in H1'. discriminate.
    + destruct HR as (w1' & H1' & H2'). rewrite H1 in H1'. injection H1' as <- <-.
      rewrite H2 in H2'. discriminate.
    + destruct HR as (w1' & H1' & H2'). rewrite H1 in H1'. injection H1' as <- <-.
      rewrite H2 in H2'. discriminate.
    + destruct (Resolved_functional _ _ _ _ _ _ _ _ _ _ HR HR') as (-> & -> & _).
      rewrite Hf in Hf'. discriminate.
    + exact H.
Qed.

Lemma Way_unresolved :
  (forall org repo w2, ~ Resolved c orgLogin "istio" w org repo w2) ->
  (Issued c w [CallReadOrgByLogin orgLogin] (snd r) \/
   exists orgID,
     Issued c w [CallReadOrgByLogin orgLogin; CallReadRepoByName orgID "istio"] (snd r)) /\
  exists e, fst r = ([], Some e) /\ (statusOf e = Some 500%Z \/ statusOf e = Some 404%Z).
Proof.
  intro Hno.
  pose proof (readOrgByLogin_Issued c orgLogin w) as I1.
  destruct way as [org cause w1 H1 H | w1 H1 H | org w1 repo cause w2 H1 H2 H
                  | org w1 w2 H1 H2 H | org repo w2 cause HR _ _ | org repo w2 HR _ _ _];
    try (exfalso; exact (Hno _ _ _ HR)); rewrite H1 in I1; simpl in I1; rewrite H.
  - split; [left; exact I1|]. eexists. split; [reflexivity|]. left. reflexivity.
  - split; [left; exact I1|]. eexists. split; [reflexivity|]. right. reflexivity.
  - pose proof (readRepoByName_Issued c (storage.OrgID org) "istio" w1) as I2.
    rewrite H2 in I2.
    split; [right; exists (storage.OrgID org); exact (Issued_app c _ _ _ _ _ I1 I2)|].
    eexists. split; [reflexivity|]. left. reflexivity.
  - pose proof (readRepoByName_Issued c (storage.OrgID org) "istio" w1) as I2.
    rewrite H2 in I2.
    split; [right; exists (storage.OrgID org); exact (Issued_app c _ _ _ _ _ I1 I2)|].
    eexists. split; [reflexivity|]. right. reflexivity.
Qed.
End Ways.

(** In both variants, an error of [getIssues] comes with the nil slice, and
    it is one of five: the 500 built from a failed organization lookup, whose
    message names the requested login and quotes the error that lookup
    returned; the 404 for an organization the lookup did not find; the same
    two for the lookup of the repository ["istio"] in the organization found;
    or the error the store's scan ended with, as the store returned it. *)
Theorem every_error_is_a_lookup_failure_or_the_scan_error :
  forall (C : Type) (d : DisplayResolved.topic C) (p : PassThrough.topic C)
         (orgLogin : string) (w : World C),
    (forall ss e w',
        DisplayResolved.getIssues d orgLogin w = ((ss, Some e), w') ->
        ss = [] /\
        ((exists org cause w1,
            readOrgByLogin (DisplayResolved.cache d) orgLogin w = ((org, Some cause), w1) /\
            e = lookupFailed "organization" orgLogin cause) \/
        (exists w1,
            readOrgByLogin (DisplayResolved.cache d) orgLogin w = ((None, None), w1) /\
            e = nothingFound "organization" orgLogin) \/
        (exists org w1 repo cause w2,
            readOrgByLogin (DisplayResolved.cache d) orgLogin w = ((Some org, None), w1) /\
            readRepoByName (DisplayResolved.cache d) (storage.OrgID org) "istio" w1 = ((repo, Some cause), w2) /\
            e = lookupFailed "repository" "istio" cause) \/
        (exists org w1 w2,
            readOrgByLogin (DisplayResolved.cache d) orgLogin w = ((Some org, None), w1) /\
            readRepoByName (DisplayResolved.cache d) (storage.OrgID org) "istio" w1 = ((None, None), w2) /\
            e = nothingFound "repository" "istio") \/
        (exists org repo w2,
            Resolved (DisplayResolved.cache d) orgLogin "istio" w org repo w2 /\
            storage.failure 
              (storage.QueryOpenIssuesByRepo (DisplayResolved.store d)
                 (storage.OrgID org) (storage.RepoID repo)) = Some e))) /\
    (forall ss e w',
        PassThrough.getIssues p orgLogin w = ((ss, Some e), w') ->
        ss = [] /\
        ((exists org cause w1,
            readOrgByLogin (PassThrough.cache p) orgLogin w = ((org, Some cause), w1) /\
            e = lookupFailed "organization" orgLogin cause) \/
        (exists w1,
            readOrgByLogin (PassThrough.cache p) orgLogin w = ((None, None), w1) /\
            e = nothingFound "organization" orgLogin) \/
        (exists org w1 repo cause w2,
            readOrgByLogin (PassThrough.cache p) orgLogin w = ((Some org, None), w1) /\
            readRepoByName (PassThrough.cache p) (storage.OrgID org) "istio" w1 = ((repo, Some cause), w2) /\
            e = lookupFailed "repository" "istio" cause) \/
        (exists org w1 w2,
            readOrgByLogin (PassThrough.cache p) orgLogin w = ((Some org, None), w1) /\
            readRepoByName (PassThrough.cache p) (storage.OrgID org) "istio" w1 = ((None, None), w2) /\
            e = nothingFound "repository" "istio") \/
        (exists org repo w2,
            Resolved (PassThrough.cache p) orgLogin "istio" w org repo w2 /\
            storage.failure 
              (storage.QueryIssuesByRepo (PassThrough.store p)
                 (storage.OrgID org) (storage.RepoID repo)) = Some e))).
Proof.
  intros C d p orgLogin w. split; intros ss e w' H.
  - exact (Way_error _ _ _ _ _ (getIssues_way d orgLogin w) ss e w' H).
  - exact (Way_error _ _ _ _ _ (raw_getIssues_way p orgLogin w) ss e w' H).
Qed.

Lemma every_error_is_a_lookup_failure_or_the_scan_error_witness :
  let d := Demo.resolved (Demo.scanOf Demo.threeIssues (Some (PlainError "io"))) in
  snd (fst (DisplayResolved.getIssues d "broken" Demo.start))
    = Some (lookupFailed "organization" "broken" (PlainError "timeout")) /\
  snd (fst (DisplayResolved.getIssues d "istio" Demo.start)) = Some (PlainError "io").
Proof.
  intro d.
  destruct (every_error_is_a_lookup_failure_or_the_scan_error
              unit d (Demo.raw (Demo.scanOf [] None)) "broken" Demo.start) as (Hb & _).
  destruct (every_error_is_a_lookup_failure_or_the_scan_error
              unit d (Demo.raw (Demo.scanOf [] None)) "istio" Demo.start) as (Hi & _).
  split.
  - destruct (Hb _ _ _ eq_refl)
      as (_ & [(org & cause & w1 & H1 & Hc) | [(w1 & H1 & _) | [(org & w1 & repo & cause & w2 & H1 & _)
                | [(org & w1 & w2 & H1 & _) | (org & repo & w2 & (w1 & H1 & _) & _)]]]]);
      try discriminate H1.
    injection H1 as _ <- _. rewrite <- Hc. reflexivity.
  - destruct (Hi _ _ _ eq_refl)
      as (_ & [(org & cause & w1 & H1 & _) | [(w1 & H1 & _) | [(org & w1 & repo & cause & w2 & H1 & H2 & _)
                | [(org & w1 & w2 & H1 & H2 & _) | (org & repo & w2 & (w1 & H1 & H2) & Hf)]]]]).
    + discriminate H1.
    + discriminate H1.
    + injection H1 as <- <-. discriminate H2.
    + injection H1 as <- <-. discriminate H2.
    + injection H1 as <- <-. injection H2 as <- _. rewrite <- Hf. reflexivity.
Defined.

(** In both variants [getIssues] returns a nil error exactly when the
    organization resolves, the repository ["istio"] of that organization
    resolves, and the scan of that repository ends without error. *)
Theorem getIssues_succeeds_exactly_when_resolved_and_scanned :
  forall (C : Type) (d : DisplayResolved.topic C) (p : PassThrough.topic C)
         (orgLogin : string) (w : World C),
    (snd (fst (DisplayResolved.getIssues d orgLogin w)) = None <->
     exists org repo w2,
       Resolved (DisplayResolved.cache d) orgLogin "istio" w org repo w2 /\
       storage.failure
         (storage.QueryOpenIssuesByRepo (DisplayResolved.store d)
            (storage.OrgID org) (storage.RepoID repo)) = None) /\
    (snd (fst (PassThrough.getIssues p orgLogin w)) = None <->
     exists org repo w2,
       Resolved (PassThrough.cache p) orgLogin "istio" w org repo w2 /\
       storage.failure
         (storage.QueryIssuesByRepo (PassThrough.store p)
            (storage.OrgID org) (storage.RepoID repo)) = None).
Proof.
  intros C d p orgLogin w. split.
  - exact (Way_success _ _ _ _ _ (getIssues_way d orgLogin w)).
  - exact (Way_success _ _ _ _ _ (raw_getIssues_way p orgLogin w)).
Qed.

(** Where organization and repository do not both resolve, [getIssues], in
    either variant, stops at the lookup that failed: it has issued the
    organization lookup alone, or that and the repository lookup, and no user
    lookup; it returns the nil slice and an error carrying 500 or 404. *)
Theorem unresolved_requests_stop_at_the_failed_lookup :
  forall (C : Type) (c : cache.Cache C)
         (d : DisplayResolved.topic C) (p : PassThrough.topic C),
    DisplayResolved.cache d = c ->
    PassThrough.cache p = c ->
    forall (orgLogin : string) (w : World C),
      (forall org repo w2, ~ Resolved c orgLogin "istio" w org repo w2) ->
      ((Issued c w [CallReadOrgByLogin orgLogin]
               (snd (DisplayResolved.getIssues d orgLogin w)) \/
        exists orgID,
          Issued c w [CallReadOrgByLogin orgLogin; CallReadRepoByName orgID "istio"]
                 (snd (DisplayResolved.getIssues d orgLogin w))) /\
       exists e, fst (DisplayResolved.getIssues d orgLogin w) = ([], Some e) /\
                 (statusOf e = Some 500%Z \/ statusOf e = Some 404%Z)) /\
      ((Issued c w [CallReadOrgByLogin orgLogin]
               (snd (PassThrough.getIssues p orgLogin w)) \/
        exists orgID,
          Issued c w [CallReadOrgByLogin orgLogin; CallReadRepoByName orgID "istio"]
                 (snd (PassThrough.getIssues p orgLogin w))) /\
       exists e, fst (PassThrough.getIssues p orgLogin w) = ([], Some e) /\
                 (statusOf e = Some 500%Z \/ statusOf e = Some 404%Z)).
Proof.
  intros C c d p Hd Hp orgLogin w Hno. split.
  - subst c. exact (Way_unresolved _ _ _ _ _ (getIssues_way d orgLogin w) Hno).
  - rewrite <- Hp in *.
    exact (Way_unresolved _ _ _ _ _ (raw_getIssues_way p orgLogin w) Hno).
Qed.

Lemma unresolved_requests_stop_at_the_failed_lookup_witness :
  calls (snd (DisplayResolved.getIssues
                (Demo.resolved (Demo.scanOf Demo.threeIssues None)) "norepo" Demo.start))
    = [CallReadOrgByLogin "norepo"; CallReadRepoByName "o2" "istio"].
Proof.
  assert (Hno : forall org repo w2,
             ~ Resolved Demo.demoCache "norepo" "istio" Demo.start org repo w2).
  { intros org repo w2 (w1 & H1 & H2). injection H1 as <- <-. discriminate H2. }
  destruct (unresolved_requests_stop_at_the_failed_lookup
              unit Demo.demoCache
              (Demo.resolved (Demo.scanOf Demo.threeIssues None))
              (Demo.raw (Demo.scanOf Demo.threeIssues None))
              eq_refl eq_refl "norepo" Demo.start Hno) as (([H | (orgID & H)] & _) & _).
  - destruct H as (H & _). apply (f_equal (@length CacheCall)) in H. discriminate.
  - reflexivity.
Defined.

(** ** The handlers, whatever the resolver answers *)

Ltac run_handler H :=
  rewrite bind_run;
  match goal with
  | |- context [fst (?g ?w)] =>
      destruct (g w) as [[issues [e|]] w'] eqn:H; simpl
  end.

(** The HTML handler, in both variants and on every request, issues no lookup
    of its own and executes the page template exactly once, on the slice
    [getIssues] returned.  It renders the page once if the template executes
    without error and not at all otherwise, whether or not [getIssues]
    failed; and it reports one error for a failed [getIssues] and one more
    for a failed template, so up to two on one response.  It never renders
    JSON. *)
Theorem html_handler_executes_the_template_once_and_reports_each_failure :
  forall (C : Type) (d : DisplayResolved.topic C) (p : PassThrough.topic C)
         (query : string) (w : World C),
    (let r := DisplayResolved.getIssues d
                (if string_dec query "" then DefaultOrg (DisplayResolved.options d)
                 else query) w in
     let out := fst (DisplayResolved.handleListIssuesHTML d query w) in
     let executed := DisplayResolved.page d (fst (fst r)) in
     snd (DisplayResolved.handleListIssuesHTML d query w) = snd r /\
     filter isPageExecute out = [PageExecute (fst (fst r))] /\
     filter isRenderHTML out
       = match snd executed with Some _ => [] | None => [RenderHTML (fst executed)] end /\
     length (filter isRenderHTMLError out) = failed (snd (fst r)) + failed (snd executed) /\
     filter isRenderJSON out = []) /\
    (let r := PassThrough.getIssues p
                (if string_dec query "" then DefaultOrg (PassThrough.options p)
                 else query) w in
     let out := fst (PassThrough.handleListIssuesHTML p query w) in
     let executed := PassThrough.page p (fst (fst r)) in
     snd (PassThrough.handleListIssuesHTML p query w) = snd r /\
     filter isPageExecute out = [PageExecute (fst (fst r))] /\
     filter isRenderHTML out
       = match snd executed with Some _ => [] | None => [RenderHTML (fst executed)] end /\
     length (filter isRenderHTMLError out) = failed (snd (fst r)) + failed (snd executed) /\
     filter isRenderJSON out = []).
Proof.
  intros C d p query w. split.
  - unfold DisplayResolved.handleListIssuesHTML. cbv zeta. run_handler H;
      destruct (DisplayResolved.page d issues) as [sb [e'|]]; simpl;
      repeat split; reflexivity.
  - unfold PassThrough.handleListIssuesHTML. cbv zeta. run_handler H;
      destruct (PassThrough.page p issues) as [sb [e'|]]; simpl;
      repeat split; reflexivity.
Qed.

(** The JSON handler, in both variants and on every request, issues no lookup
    of its own and hands the render context exactly one thing: the summaries
    with status 200 when [getIssues] returned no error, and otherwise the
    error, through [RenderHTMLError].  So it answers with the summaries
    exactly when the organization and its repository ["istio"] resolve and
    the scan ends without error.  It never executes the page template. *)
Theorem json_handler_renders_exactly_once :
  forall (C : Type) (d : DisplayResolved.topic C) (p : PassThrough.topic C)
         (query : string) (w : World C),
    let orgLogin := if string_dec query "" then "istio" else query in
    (let r := DisplayResolved.getIssues d orgLogin w in
     let out := fst (DisplayResolved.handleListIssuesJSON d query w) in
     snd (DisplayResolved.handleListIssuesJSON d query w) = snd r /\
     out = [match snd (fst r) with
            | Some e => RenderHTMLError e
            | None => RenderJSON 200 (fst (fst r))
            end] /\
     filter isPageExecute out = [] /\
     ((exists issues, out = [RenderJSON 200 issues]) <->
      exists org repo w2,
        Resolved (DisplayResolved.cache d) orgLogin "istio" w org repo w2 /\
        storage.failure
          (storage.QueryOpenIssuesByRepo (DisplayResolved.store d)
             (storage.OrgID org) (storage.RepoID repo)) = None)) /\
    (let r := PassThrough.getIssues p orgLogin w in
     let out := fst (PassThrough.handleListIssuesJSON p query w) in
     snd (PassThrough.handleListIssuesJSON p query w) = snd r /\
     out = [match snd (fst r) with
            | Some e => RenderHTMLError e
            | None => RenderJSON 200 (fst (fst r))
            end] /\
     filter isPageExecute out = [] /\
     ((exists issues, out = [RenderJSON 200 issues]) <->
      exists org repo w2,
        Resolved (PassThrough.cache p) orgLogin "istio" w org repo w2 /\
        storage.failure
          (storage.QueryIssuesByRepo (PassThrough.store p)
             (storage.OrgID org) (storage.RepoID repo)) = None)).
Proof.
  intros C d p query w orgLogin. split.
  - pose proof (Way_success _ _ _ _ _ (getIssues_way d orgLogin w)) as Hiff.
    unfold DisplayResolved.handleListIssuesJSON. cbv zeta. fold orgLogin.
    rewrite bind_run.
    destruct (DisplayResolved.getIssues d orgLogin w) as [[issues [e|]] w'];
      simpl in *; (split; [reflexivity|]); (split; [reflexivity|]);
      (split; [reflexivity|]); rewrite <- Hiff; split.
    + intros (l & H). discriminate.
    + discriminate.
    + reflexivity.
    + intros _. exists issues. reflexivity.
  - pose proof (Way_success _ _ _ _ _ (raw_getIssues_way p orgLogin w)) as Hiff.
    unfold PassThrough.handleListIssuesJSON. cbv zeta. fold orgLogin.
    rewrite bind_run.
    destruct (PassThrough.getIssues p orgLogin w) as [[issues [e|]] w'];
      simpl in *; (split; [reflexivity|]); (split; [reflexivity|]);
      (split; [reflexivity|]); rewrite <- Hiff; split.
    + intros (l & H). discriminate.
    + discriminate.
    + reflexivity.
    + intros _. exists issues. reflexivity.
Qed.

(** A request without an [org] parameter is served as the request that names
    the default organization, which is [options.DefaultOrg] for the HTML
    handler and the literal ["istio"] for the JSON handler, whatever
    [options.DefaultOrg] is; so in both variants. *)
Theorem empty_org_parameter_means_the_default_organization :
  forall (C : Type) (d : DisplayResolved.topic C) (p : PassThrough.topic C) (w : World C),
    DisplayResolved.handleListIssuesHTML d "" w
      = DisplayResolved.handleListIssuesHTML d (DefaultOrg (DisplayResolved.options d)) w /\
    DisplayResolved.handleListIssuesJSON d "" w
      = DisplayResolved.handleListIssuesJSON d "istio" w /\
    PassThrough.handleListIssuesHTML p "" w
      = PassThrough.handleListIssuesHTML p (DefaultOrg (PassThrough.options p)) w /\
    PassThrough.handleListIssuesJSON p "" w
      = PassThrough.handleListIssuesJSON p "istio" w.
Proof.
  intros C d p w. split; [|split; [|split]].
  - unfold DisplayResolved.handleListIssuesHTML.
    destruct (string_dec (DefaultOrg (DisplayResolved.options d)) "") as [E|E];
      [rewrite E|]; reflexivity.
  - reflexivity.
  - unfold PassThrough.handleListIssuesHTML.
    destruct (string_dec (DefaultOrg (PassThrough.options p)) "") as [E|E];
      [rewrite E|]; reflexivity.
  - reflexivity.
Qed.

(** Where the request names an organization, or the configured default is
    ["istio"], the two handlers of the display-resolved variant resolve the
    same organization: they leave the world in the same state, the JSON
    handler serialises exactly the slice the HTML handler executes the
    template on, and an error the JSON handler reports is the one the HTML
    handler reports first. *)
Theorem html_and_json_handlers_present_the_same_result :
  forall (C : Type) (d : DisplayResolved.topic C) (query : string) (w : World C),
    query <> "" \/ DefaultOrg (DisplayResolved.options d) = "istio" ->
    snd (DisplayResolved.handleListIssuesHTML d query w)
      = snd (DisplayResolved.handleListIssuesJSON d query w) /\
    (forall code issues,
        fst (DisplayResolved.handleListIssuesJSON d query w) = [RenderJSON code issues] ->
        exists final,
          fst (DisplayResolved.handleListIssuesHTML d query w)
            = [PageExecute issues; final]) /\
    (forall e,
        fst (DisplayResolved.handleListIssuesJSON d query w) = [RenderHTMLError e] ->
        exists final,
          fst (DisplayResolved.handleListIssuesHTML d query w)
            = [RenderHTMLError e; PageExecute []; final]).
Proof.
  intros C d query w Hq.
  assert (Hlogin : (if string_dec query "" then DefaultOrg (DisplayResolved.options d)
                    else query)
                   = (if string_dec query "" then "istio" else query)).
  { destruct (string_dec query "") as [E|E]; [|reflexivity].
    destruct Hq as [Hq|Hq]; [contradiction | exact Hq]. }
  unfold DisplayResolved.handleListIssuesHTML, DisplayResolved.handleListIssuesJSON.
  cbv zeta. rewrite Hlogin, !bind_run.
  destruct (DisplayResolved.getIssues d (if string_dec query "" then "istio" else query) w)
    as [[issues [e|]] w'] eqn:Hg; simpl.
  - pose proof (getIssues_failure_nil d _ _ _ _ _ Hg) as ->.
    destruct (DisplayResolved.page d []) as [sb [e'|]]; simpl;
      (split; [reflexivity|]); split; intros; try discriminate;
      match goal with H : [_] = [_] |- _ => injection H as <- end;
      eexists; reflexivity.
  - destruct (DisplayResolved.page d issues) as [sb [e'|]]; simpl;
      (split; [reflexivity|]); split; intros; try discriminate;
      match goal with H : [_] = [_] |- _ => injection H as <- <- end;
      eexists; reflexivity.
Qed.

Lemma html_and_json_handlers_present_the_same_result_witness :
  let d := Demo.resolved (Demo.scanOf Demo.threeIssues None) in
  exists issues,
    fst (DisplayResolved.handleListIssuesJSON d "" Demo.start) = [RenderJSON 200 issues] /\
    fst (DisplayResolved.handleListIssuesHTML d "" Demo.start)
      = [PageExecute issues; RenderHTML "<page>"].
Proof.
  intro d.
  destruct (html_and_json_handlers_present_the_same_result unit d "" Demo.start
              (or_intror eq_refl)) as (_ & Hok & _).
  eexists. split; [reflexivity|].
  destruct (Hok _ _ eq_refl) as (final & H). rewrite H.
  vm_compute in H. injection H as <-. reflexivity.
Defined.

(** ** Titles that look alike *)

Lemma append_same_length (a b c d : string) :
  String.length a = String.length b -> a ++ c = b ++ d -> a = b.
Proof.
  revert b. induction a as [|x a IH]; intros [|y b] Hl H; simpl in *;
    try reflexivity; try discriminate.
  injection H as -> H. f_equal. apply IH; [lia | exact H].
Qed.

Lemma prefix_of_append (a b : string) :
  substring 0 (String.length a) (a ++ b) = a.
Proof. induction a as [|x a IH]; simpl; [now destruct b | now rewrite IH]. Qed.

Lemma prefix_idempotent (n : nat) (s : string) :
  n <= String.length s -> forall b, substring 0 n (substring 0 n s ++ b) = substring 0 n s.
Proof.
  intros H b. rewrite <- (length_prefix n s H) at 1. apply prefix_of_append.
Qed.

(** The first 50 bytes of a title always survive, and they are all that
    distinguishes long titles: the summaries of two issues show the same
    title exactly when both titles have at most 50 bytes and are equal, or
    both have more and agree on their first 50 bytes.  A cut title is never
    taken for an uncut one. *)
Theorem summary_titles_coincide_exactly_on_equal_first_50_bytes :
  forall (C : Type) (t : DisplayResolved.topic C) (repoName : string)
         (i j : storage.Issue) (acc acc' : list DisplayResolved.IssueSummary)
         (w w0 : World C),
  exists s s' w1 w2,
    DisplayResolved.visit t repoName i acc w = (((acc ++ [s])%list, None), w1) /\
    DisplayResolved.visit t repoName j acc' w0 = (((acc' ++ [s'])%list, None), w2) /\
    substring 0 50 (DisplayResolved.Title s) = substring 0 50 (storage.Title i) /\
    (DisplayResolved.Title s = DisplayResolved.Title s' <->
     (String.length (storage.Title i) <= 50 /\
      String.length (storage.Title j) <= 50 /\
      storage.Title i = storage.Title j) \/
     (50 < String.length (storage.Title i) /\
      50 < String.length (storage.Title j) /\
      substring 0 50 (storage.Title i) = substring 0 50 (storage.Title j))).
Proof.
  intros C t repoName i j acc acc' w w0.
  destruct (visit_title t repoName i acc w) as (s & w1 & Hv & Ht).
  destruct (visit_title t repoName j acc' w0) as (s' & w2 & Hv' & Ht').
  exists s, s', w1, w2. split; [exact Hv|]. split; [exact Hv'|].
  rewrite Ht, Ht'.
  destruct (Nat.leb_spec (String.length (storage.Title i)) 50) as [Hi|Hi];
    destruct (Nat.leb_spec (String.length (storage.Title j)) 50) as [Hj|Hj].
  - split; [reflexivity|]. split.
    + intro H. left. repeat split; assumption.
    + intros [(_ & _ & H) | (H & _)]; [exact H | lia].
  - split; [reflexivity|]. split.
    + intro H. apply (f_equal String.length) in H.
      rewrite length_append, length_prefix in H by lia. simpl in H. lia.
    + intros [(_ & H & _) | (H & _)]; lia.
  - split; [apply prefix_idempotent; lia|]. split.
    + intro H. apply (f_equal String.length) in H.
      rewrite length_append, length_prefix in H by lia. simpl in H. lia.
    + intros [(H & _) | (_ & H & _)]; lia.
  - split; [apply prefix_idempotent; lia|]. split.
    + intro H. right. repeat split; try assumption.
      apply (append_same_length _ _ _ _) in H; [exact H|].
      rewrite !length_prefix by lia. reflexivity.
    + intros [(H & _) | (_ & _ & H)]; [lia | now rewrite H].
Qed.

(** ** An empty assignee string *)

Lemma dropEmpty_head (names : list string) :
  dropEmpty names = [] \/
  exists n rest, dropEmpty names = n :: rest /\ n <> "".
Proof.
  induction names as [|n rest IH]; [left; reflexivity|].
  simpl. destruct (string_dec n "") as [E|E]; [exact IH|].
  right. exists n, rest. split; [reflexivity | exact E].
Qed.

Lemma dropEmpty_nil (names : list string) :
  dropEmpty names = [] <-> Forall (fun n => n = "") names.
Proof.
  induction names as [|n rest IH]; simpl.
  - split; [constructor | reflexivity].
  - destruct (string_dec n "") as [E|E].
    + rewrite IH. split; [now constructor | now inversion 1].
    + split; [discriminate | inversion 1; contradiction].
Qed.

Lemma join_nonempty (sep n : string) (rest : list string) :
  n <> "" -> join sep (n :: rest) <> "".
Proof.
  intros Hn H. destruct rest as [|m rest]; simpl in H; [contradiction|].
  apply append_eq_nil in H as [H _]. contradiction.
Qed.

(** The assignee string of a summary is empty exactly when every assignee
    of the issue resolves to an empty login, which includes the issue
    without assignees: the summary does not tell the two apart.  An assignee
    whose lookup fails resolves to ["unknown"], so it never leaves the string
    empty. *)
Theorem assignees_are_empty_exactly_when_every_login_is_empty :
  forall (C : Type) (t : DisplayResolved.topic C) (repoName : string)
         (i : storage.Issue) (acc : list DisplayResolved.IssueSummary) (w : World C),
  exists s w',
    DisplayResolved.visit t repoName i acc w = (((acc ++ [s])%list, None), w') /\
    (DisplayResolved.Assignees s = "" <->
     Forall (fun login => login = "") (fst (resolveAll t (storage.AssigneeIDs i) w))) /\
    (forall userID c,
        Unresolved (fst (cache.ReadUser (DisplayResolved.cache t) userID c)) ->
        fst (DisplayResolved.getUser t userID {| cacheState := c; calls := [] |}) <> "").
Proof.
  intros C t repoName i acc w.
  destruct (visit_assignees t repoName i acc w) as (s & w' & Hv & Ha).
  exists s, w'. split; [exact Hv|]. split.
  - rewrite Ha, <- dropEmpty_nil.
    destruct (dropEmpty_head (fst (resolveAll t (storage.AssigneeIDs i) w)))
      as [E | (n & rest & E & Hn)]; rewrite E.
    + split; reflexivity.
    + split; [intro H; exfalso; exact (join_nonempty _ _ _ Hn H) | discriminate].
  - intros userID c Hun. rewrite getUser_run. simpl.
    rewrite (loginOr_unresolved _ Hun). discriminate.
Qed.

(** ** The two variants side by side *)

Lemma Forall2_against_map {A B X : Type} (f : A -> X) (Q : B -> X -> Prop)
      (l : list A) (ss : list B) :
  Forall2 (fun a b => Q b (f a)) l ss -> Forall2 Q ss (map f l).
Proof. induction 1; simpl; constructor; assumption. Qed.

Lemma Visits_Resolves {C : Type} (d : DisplayResolved.topic C) (repoName : string)
      l (w : World C) ss w' :
  Visits (DisplayResolved.visit d repoName) l w ss w' ->
  Forall2 (Resolves (DisplayResolved.cache d)) ss (map (carried repoName) l).
Proof.
  intro Hv. apply Forall2_against_map.
  revert Hv. apply Visits_Forall2. intros i w0 s w1 Hs.
  destruct (visit_fields d repoName i w0 s w1 Hs) as (H1 & H2 & H3 & H4 & _ & H6).
  repeat split; try assumption.
  - rewrite H4. simpl.
    destruct (Nat.ltb_spec 50 (String.length (storage.Title i)));
      destruct (Nat.leb_spec (String.length (storage.Title i)) 50);
      try reflexivity; lia.
  - rewrite getUser_run in H6. simpl in H6. eexists. exact H6.
Qed.

(** On one cache, and stores whose scan of the open issues of a repository
    emits and ends as the other's scan of all its issues, the two variants of
    [getIssues] return the same error or none alike, and the display-resolved
    summaries are, one for one and in order, the pass-through summaries with
    the same [Repo], [Number] and [State], the title cut at 50 bytes, and the
    author's identifier replaced by what a lookup of it answered. *)
Theorem display_resolved_is_pass_through_with_identities_resolved :
  forall (C : Type) (c : cache.Cache C)
         (d : DisplayResolved.topic C) (p : PassThrough.topic C),
    DisplayResolved.cache d = c ->
    PassThrough.cache p = c ->
    (forall orgID repoID,
        storage.QueryOpenIssuesByRepo (DisplayResolved.store d) orgID repoID
          = storage.QueryIssuesByRepo (PassThrough.store p) orgID repoID) ->
    forall (orgLogin : string) (w : World C),
      snd (fst (DisplayResolved.getIssues d orgLogin w))
        = snd (fst (PassThrough.getIssues p orgLogin w)) /\
      Forall2 (Resolves c)
              (fst (fst (DisplayResolved.getIssues d orgLogin w)))
              (fst (fst (PassThrough.getIssues p orgLogin w))).
Proof.
  intros C c d p Hd Hp Hstore orgLogin w. subst c.
  destruct (readOrgByLogin (DisplayResolved.cache d) orgLogin w)
    as [[[org|] [e|]] w1] eqn:Horg.
  - rewrite (getIssues_error d _ _ _ _ _ Horg).
    rewrite <- Hp in Horg. rewrite (raw_getIssues_error p _ _ _ _ _ Horg).
    split; [reflexivity | constructor].
  - destruct (readRepoByName (DisplayResolved.cache d) (storage.OrgID org) "istio" w1)
      as [[[repo|] [e|]] w2] eqn:Hrepo.
    + rewrite (getIssues_found d _ _ _ _ Horg), (getIssuesForRepo_error d _ _ _ _ _ _ Hrepo).
      rewrite <- Hp in Horg, Hrepo.
      rewrite (raw_getIssues_repo_error p _ _ _ _ _ _ _ Horg Hrepo).
      split; [reflexivity | constructor].
    + destruct (Visits_total d "istio"
                  (storage.emitted
                     (storage.QueryOpenIssuesByRepo (DisplayResolved.store d)
                        (storage.OrgID org) (storage.RepoID repo))) w2)
        as (ss & w' & Hv).
      rewrite (getIssues_found d _ _ _ _ Horg), (getIssuesForRepo_found d _ _ _ _ _ Hrepo _ _ Hv).
      pose proof (Visits_Resolves d "istio" _ _ _ _ Hv) as Hall.
      assert (HR : Resolved (PassThrough.cache p) orgLogin "istio" w org repo w2).
      { rewrite Hp. exists w1. split; assumption. }
      rewrite (raw_getIssues_found p _ _ _ _ _ HR).
      rewrite Hstore in *.
      destruct (storage.failure _) as [e|]; simpl.
      * split; [reflexivity | constructor].
      * split; [reflexivity | exact Hall].
    + rewrite (getIssues_found d _ _ _ _ Horg), (getIssuesForRepo_error d _ _ _ _ _ _ Hrepo).
      rewrite <- Hp in Horg, Hrepo.
      rewrite (raw_getIssues_repo_error p _ _ _ _ _ _ _ Horg Hrepo).
      split; [reflexivity | constructor].
    + rewrite (getIssues_found d _ _ _ _ Horg), (getIssuesForRepo_missing d _ _ _ _ Hrepo).
      rewrite <- Hp in Horg, Hrepo.
      rewrite (raw_getIssues_repo_missing p _ _ _ _ _ Horg Hrepo).
      split; [reflexivity | constructor].
  - rewrite (getIssues_error d _ _ _ _ _ Horg).
    rewrite <- Hp in Horg. rewrite (raw_getIssues_error p _ _ _ _ _ Horg).
    split; [reflexivity | constructor].
  - rewrite (getIssues_missing d _ _ _ Horg).
    rewrite <- Hp in Horg. rewrite (raw_getIssues_missing p _ _ _ Horg).
    split; [reflexivity | constructor].
Qed.

Lemma display_resolved_is_pass_through_with_identities_resolved_witness :
  let store := Demo.scanOf Demo.threeIssues None in
  length (fst (fst (DisplayResolved.getIssues (Demo.resolved store) "istio" Demo.start)))
    = length (fst (fst (PassThrough.getIssues (Demo.raw store) "istio" Demo.start))) /\
  snd (fst (DisplayResolved.getIssues (Demo.resolved store) "nobody" Demo.start))
    = snd (fst (PassThrough.getIssues (Demo.raw store) "nobody" Demo.start)).
Proof.
  intro store.
  pose proof (display_resolved_is_pass_through_with_identities_resolved
                unit Demo.demoCache (Demo.resolved store) (Demo.raw store)
                eq_refl eq_refl (fun _ _ => eq_refl)) as T.
  split.
  - destruct (T "istio" Demo.start) as (_ & Hall). exact (Forall2_length Hall).
  - destruct (T "nobody" Demo.start) as (He & _). exact He.
Defined.
